(** * A parametrised deterministic finite automaton and its replay engine

    Shallow embedding of [fsa/dfa.hpp]: the class template [Dfa<State, Alpha>]
    (a transition table with a set of states, an alphabet, an initial state
    and a set of accepting states) and the class template
    [DfaPlayer<State, Alpha>] that replays a sequence of symbols through an
    automaton and reports to an optional event listener.

    Conventions of the embedding.
    - [std::set<T>] is a [gset T], [std::map<K, V>] is a [gmap K V]; the
      template parameters [State] and [Alpha] are any countable types.
    - A data member that no constructor initialises holds no defined value:
      it is an [option], [None] until the code assigns it.  Reading such a
      member is an undefined operation, which the player's monad reports as
      a failed computation.
    - [int] is a [Z] in the range of a 32-bit signed integer, and [++] wraps
      around.
    - The methods that modify an automaton are functions from the automaton
      to the modified automaton; the value they return to the caller is
      their argument.  A call whose outcome C++ leaves undefined yields
      [None]. *)

From Stdlib Require Import ZArith Ascii.
From stdpp Require Import gmap strings list fin_maps pretty.

Open Scope Z_scope.

(** ** The automaton *)

Section DfaDef.
Context {State Alpha : Type}.
Context `{Countable State} `{Countable Alpha}.

(** The data members of [Dfa], in the order of their declaration.
    [_init] has no default member initialiser, so the defaulted default
    constructor leaves it without a value. *)
Record Dfa : Type := mkDfa {
  _states : gset State;
  _init : option State;
  _alphabet : gset Alpha;
  _transTable : gmap (State * Alpha) State;
  _finStates : gset State
}.

(** [Dfa() = default]. *)
Definition Dfa_default : Dfa :=
  {| _states := ∅; _init := None; _alphabet := ∅;
     _transTable := ∅; _finStates := ∅ |}.

(** [std::map::insert]: the pair is stored only when the key is not yet
    in the map; otherwise the map is left as it is. *)
Definition map_insert {K V : Type} `{Countable K}
    (k : K) (v : V) (m : gmap K V) : gmap K V :=
  match m !! k with
  | Some _ => m
  | None => <[k := v]> m
  end.

(** [State addState(State s)] *)
Definition addState (s : State) (A : Dfa) : Dfa :=
  {| _states := {[s]} ∪ _states A;
     _init := if decide (size (_states A) = 0%nat) then Some s else _init A;
     _alphabet := _alphabet A;
     _transTable := _transTable A;
     _finStates := _finStates A |}.

(** [Alpha addSymbol(Alpha a)] *)
Definition addSymbol (a : Alpha) (A : Dfa) : Dfa :=
  {| _states := _states A;
     _init := _init A;
     _alphabet := {[a]} ∪ _alphabet A;
     _transTable := _transTable A;
     _finStates := _finStates A |}.

(** [void addTrans(State s, Alpha a, State d)] *)
Definition addTrans (s : State) (a : Alpha) (d : State) (A : Dfa) : Dfa :=
  let A1 := addState s A in
  let A2 := addState d A1 in
  let A3 := addSymbol a A2 in
  {| _states := _states A3;
     _init := _init A3;
     _alphabet := _alphabet A3;
     _transTable := map_insert (s, a) d (_transTable A3);
     _finStates := _finStates A3 |}.

(** [State addFinState(State s)]: inserts into [_states] directly, not
    through [addState]. *)
Definition addFinState (s : State) (A : Dfa) : Dfa :=
  {| _states := {[s]} ∪ _states A;
     _init := _init A;
     _alphabet := _alphabet A;
     _transTable := _transTable A;
     _finStates := {[s]} ∪ _finStates A |}.

(** The two statements [addState(init); _init = init;], which stand in the
    bulk constructor and in the body of [setInitState]. *)
Definition assignInitState (init : State) (A : Dfa) : Dfa :=
  let A1 := addState init A in
  {| _states := _states A1;
     _init := Some init;
     _alphabet := _alphabet A1;
     _transTable := _transTable A1;
     _finStates := _finStates A1 |}.


(** [std::tuple<State, Alpha, State>] *)
Definition StateAlphaState : Type := State * Alpha * State.

(** The two range-based [for] loops of the bulk constructor. *)
Definition addTransAll (l : list StateAlphaState) (A : Dfa) : Dfa :=
  foldl (fun acc t => addTrans t.1.1 t.1.2 t.2 acc) A l.

Definition addFinStateAll (fin : list State) (A : Dfa) : Dfa :=
  foldl (fun acc s => addFinState s acc) A fin.

(** [Dfa(State init, initializer_list<StateAlphaState> l,
         initializer_list<State> fin)] *)
Definition Dfa_init (init : State) (l : list StateAlphaState)
    (fin : list State) : Dfa :=
  let A1 := addTransAll l Dfa_default in
  let A2 := addState init A1 in
  let A3 := {| _states := _states A2;
               _init := Some init;
               _alphabet := _alphabet A2;
               _transTable := _transTable A2;
               _finStates := _finStates A2 |} in
  addFinStateAll fin A3.

(** Getters.  [getInitState] copies [_init], which has a value only once
    some method has assigned it. *)
Definition getInitState (A : Dfa) : option State := _init A.
Definition getStatesNum (A : Dfa) : nat := size (_states A).
Definition getSymbolsNum (A : Dfa) : nat := size (_alphabet A).
Definition getTransNum (A : Dfa) : nat := size (_transTable A).
Definition getFinStatesNum (A : Dfa) : nat := size (_finStates A).

(** [bool getTrans(State s, Alpha a, State& d) const]: [Some d] stands for
    [true] with the out-parameter set, [None] for [false]. *)
Definition getTrans (A : Dfa) (s : State) (a : Alpha) : option State :=
  _transTable A !! (s, a).

Definition hasState (A : Dfa) (s : State) : bool :=
  bool_decide (s ∈ _states A).

Definition hasFinState (A : Dfa) (s : State) : bool :=
  bool_decide (s ∈ _finStates A).

End DfaDef.

Arguments Dfa State Alpha {_ _ _ _}.
Arguments StateAlphaState State Alpha : clear implicits.

(** ** Machine integers *)

(** [int] is a 32-bit signed integer.  Overflow of [++] on an [int] has no
    defined meaning in C++; it is modelled by the two's complement wrap of
    the usual targets, and the statements about positions say when the
    replayed sequence is short enough for the wrap not to happen. *)
Definition INT_MIN : Z := -2147483648.
Definition INT_MAX : Z := 2147483647.

Definition int_wrap (z : Z) : Z := (z + 2147483648) mod 4294967296 - 2147483648.

Definition int_incr (z : Z) : Z := int_wrap (z + 1).

Definition in_int (z : Z) : Prop := INT_MIN <= z <= INT_MAX.

(** The implicit conversion from [int] to [State] that [getCurPos] applies
    to [_curPos] (its return type is [State]). *)
Class FromInt (State : Type) : Type := from_int : Z -> State.

#[export] Instance FromInt_int : FromInt Z := fun z => z.

(** ** The player *)

Section PlayerDef.
Context {State Alpha : Type}.
Context `{Countable State} `{Countable Alpha}.

(** [enum class Result] *)
Inductive Result : Type := Ok | NoTrans | NonFinState.

(** What the accessors of the player return at some moment.  A listener
    that holds the player can call them from inside a callback, so every
    callback is handed the snapshot taken at the moment of the call. *)
Record Snapshot : Type := mkSnapshot {
  seen_state : option State;
  seen_pos : Z;
  seen_symb : option Alpha
}.

(** [class IEventListener]: two pure virtual methods, which act on the
    listener's own state [L]. *)
Class IEventListener (L : Type) : Type := {
  onStateChanging : State -> State -> Snapshot -> L -> L;
  onTransFired : State -> Alpha -> State -> Snapshot -> L -> L
}.

(** A call received by a listener. *)
Inductive Event : Type :=
  | StateChanging (preS newS : State)
  | TransFired (s : State) (a : Alpha) (d : State).

(** The listener that records every call it receives, oldest first,
    together with the snapshot of the player at that moment. *)
#[export] Instance Recorder : IEventListener (list (Event * Snapshot)) := {
  onStateChanging preS newS v log := log ++ [(StateChanging preS newS, v)];
  onTransFired s a d v log := log ++ [(TransFired s a d, v)]
}.

(** Hands one recorded call to a listener. *)
Definition deliver {L : Type} `{IEventListener L}
    (l : L) (e : Event * Snapshot) : L :=
  match e.1 with
  | StateChanging preS newS => onStateChanging preS newS e.2 l
  | TransFired s a d => onTransFired s a d e.2 l
  end.

(** The calls [evs] handed one after the other to the listener behind a
    pointer, if there is one. *)
Definition received {L : Type} `{IEventListener L}
    (evs : list (Event * Snapshot)) (cb : option L) : option L :=
  (fun l => foldl deliver l evs) <$> cb.

(** The data members of [DfaPlayer] other than [_dfa].  [_dfa] is a
    reference to an automaton owned by the caller: every method below takes
    the automaton it refers to as its first argument.  [_cb] is a nullable
    pointer to a listener: [None] is [nullptr], [Some l] a listener in
    state [l].  The constructor assigns [_curPos] only, so [_curState] and
    [_lastSymb] have no value until [play] runs. *)
Record DfaPlayer (L : Type) : Type := mkDfaPlayer {
  _curState : option State;
  _curPos : Z;
  _lastSymb : option Alpha;
  _cb : option L
}.
Arguments mkDfaPlayer {L}.
Arguments _curState {L}.
Arguments _curPos {L}.
Arguments _lastSymb {L}.
Arguments _cb {L}.

Section Methods.
Context {L : Type} `{IEventListener L}.
Context `{FromInt State}.

(** [DfaPlayer(const SpecDfa& dfa, IEventListener* cb = nullptr)] *)
Definition DfaPlayer_new (cb : option L) : DfaPlayer L :=
  {| _curState := None; _curPos := -1; _lastSymb := None; _cb := cb |}.

(** Accessors.  [getCurPos] is declared [State getCurPos() const]. *)
Definition getCurState (p : DfaPlayer L) : option State := _curState p.
Definition getCurPos (p : DfaPlayer L) : State := from_int (_curPos p).
Definition getLastSymbol (p : DfaPlayer L) : option Alpha := _lastSymb p.

Definition setEventListener (cb : option L) (p : DfaPlayer L) : DfaPlayer L :=
  {| _curState := _curState p; _curPos := _curPos p;
     _lastSymb := _lastSymb p; _cb := cb |}.

Definition getEventListener (p : DfaPlayer L) : option L := _cb p.

Definition snapshot (p : DfaPlayer L) : Snapshot :=
  {| seen_state := _curState p; seen_pos := _curPos p;
     seen_symb := _lastSymb p |}.

(** A method body is a computation over the player that may fail; it fails
    exactly when it reads a value that was never assigned. *)
Definition M (A : Type) : Type := DfaPlayer L -> option (A * DfaPlayer L).

Definition retM {A : Type} (x : A) : M A := fun p => Some (x, p).

Definition bindM {A B : Type} (c : M A) (k : A -> M B) : M B :=
  fun p => match c p with
           | Some (x, p') => k x p'
           | None => None
           end.

Notation "x <- c ;; k" := (bindM c (fun x => k))
  (at level 100, c at next level, right associativity).
Notation "c ;;; k" := (bindM c (fun _ => k))
  (at level 100, right associativity).

(** Reads a value that exists only if it was assigned before. *)
Definition assigned {A : Type} (o : option A) : M A :=
  fun p => match o with
           | Some x => Some (x, p)
           | None => None
           end.

Definition read_curState : M State := fun p => assigned (_curState p) p.

Definition write_curState (q : State) : M unit := fun p =>
  Some (tt, {| _curState := Some q; _curPos := _curPos p;
               _lastSymb := _lastSymb p; _cb := _cb p |}).

Definition write_curPos (i : Z) : M unit := fun p =>
  Some (tt, {| _curState := _curState p; _curPos := i;
               _lastSymb := _lastSymb p; _cb := _cb p |}).

Definition incr_curPos : M unit := fun p =>
  Some (tt, {| _curState := _curState p; _curPos := int_incr (_curPos p);
               _lastSymb := _lastSymb p; _cb := _cb p |}).

Definition write_lastSymb (a : Alpha) : M unit := fun p =>
  Some (tt, {| _curState := _curState p; _curPos := _curPos p;
               _lastSymb := Some a; _cb := _cb p |}).

(** [if (_cb) _cb->method(...)] *)
Definition notify (call : Snapshot -> L -> L) : M unit := fun p =>
  Some (tt, {| _curState := _curState p; _curPos := _curPos p;
               _lastSymb := _lastSymb p;
               _cb := call (snapshot p) <$> _cb p |}).

(** [void init()] *)
Definition init (dfa : Dfa State Alpha) : M unit :=
  q0 <- assigned (getInitState dfa) ;;
  write_curState q0 ;;;
  write_curPos 0 ;;;
  q <- read_curState ;;
  notify (onStateChanging q q).

(** [bool replaySymb(Alpha a)] *)
Definition replaySymb (dfa : Dfa State Alpha) (a : Alpha) : M bool :=
  write_lastSymb a ;;;
  q <- read_curState ;;
  match getTrans dfa q a with
  | None => retM false
  | Some nextSt =>
      notify (onTransFired q a nextSt) ;;;
      write_curState nextSt ;;;
      incr_curPos ;;;
      retM true
  end.

(** The [for] loop of [play] followed by the check for the accepting
    state; the [return] inside the loop leaves the method. *)
Fixpoint play_loop (dfa : Dfa State Alpha) (seq : list Alpha) : M Result :=
  match seq with
  | [] =>
      q <- read_curState ;;
      if negb (hasFinState dfa q) then retM NonFinState else retM Ok
  | a :: rest =>
      b <- replaySymb dfa a ;;
      if negb b then retM NoTrans else play_loop dfa rest
  end.

(** [Result play(const std::vector<Alpha>& seq)] *)
Definition play (dfa : Dfa State Alpha) (seq : list Alpha) : M Result :=
  init dfa ;;; play_loop dfa seq.

End Methods.
End PlayerDef.

Arguments mkDfaPlayer {State Alpha L} _ _ _ _.
Arguments _curState {State Alpha L} _.
Arguments _curPos {State Alpha L} _.
Arguments _lastSymb {State Alpha L} _.
Arguments _cb {State Alpha L} _.
Arguments Snapshot State Alpha : clear implicits.
Arguments Event State Alpha : clear implicits.
Arguments IEventListener State Alpha L : clear implicits.
Arguments DfaPlayer State Alpha L : clear implicits.
Arguments M State Alpha L A : clear implicits.

(** ** Notions used to state the properties *)

Section Notions.
Context {State Alpha : Type}.
Context `{Countable State} `{Countable Alpha}.

(** The state reached from [q] by following the transition table along
    [seq]; [None] when some transition on the way is missing. *)
Fixpoint run (dfa : Dfa State Alpha) (q : State) (seq : list Alpha)
    : option State :=
  match seq with
  | [] => Some q
  | a :: rest =>
      match getTrans dfa q a with
      | Some d => run dfa d rest
      | None => None
      end
  end.

(** The transitions taken from [q] along [seq], in input order, as the
    calls a listener is expected to receive: each with the state the player
    is still in, the position [pos] of the symbol and the symbol itself. *)
Fixpoint fired (dfa : Dfa State Alpha) (q : State) (pos : Z)
    (seq : list Alpha) : list (Event State Alpha * Snapshot State Alpha) :=
  match seq with
  | [] => []
  | a :: rest =>
      match getTrans dfa q a with
      | Some d =>
          (TransFired q a d,
           {| seen_state := Some q; seen_pos := pos; seen_symb := Some a |})
            :: fired dfa d (int_incr pos) rest
      | None => []
      end
  end.

(** The public operations that modify an automaton and return to their
    caller: [setInitState], which does not, is not among them. *)
Inductive Mutation : Type :=
  | AddState (s : State)
  | AddSymbol (a : Alpha)
  | AddTrans (s : State) (a : Alpha) (d : State)
  | AddFinState (s : State).

Definition mutate (m : Mutation) (A : Dfa State Alpha) : Dfa State Alpha :=
  match m with
  | AddState s => addState s A
  | AddSymbol a => addSymbol a A
  | AddTrans s a d => addTrans s a d A
  | AddFinState s => addFinState s A
  end.

(** [B] holds everything [A] holds: states, symbols, transitions (with
    their destinations) and accepting states. *)
Definition grows (A B : Dfa State Alpha) : Prop :=
  _states A ⊆ _states B /\ _alphabet A ⊆ _alphabet B /\
  _transTable A ⊆ _transTable B /\ _finStates A ⊆ _finStates B.

(** The destination of the first triple of [l] that starts in [s] and is
    labelled [a]. *)
Fixpoint first_dest (l : list (StateAlphaState State Alpha))
    (s : State) (a : Alpha) : option State :=
  match l with
  | [] => None
  | t :: rest =>
      if decide (t.1.1 = s /\ t.1.2 = a) then Some t.2
      else first_dest rest s a
  end.

(** A run of mutating operations, applied from left to right. *)
Definition mutate_all (ms : list Mutation) (A : Dfa State Alpha)
    : Dfa State Alpha :=
  foldl (fun acc m => mutate m acc) A ms.

(** What the parts of an automaton have to do with each other: an assigned
    initial state is a state, accepting states are states, and a transition
    joins two states under a symbol of the alphabet. *)
Definition consistent (A : Dfa State Alpha) : Prop :=
  (forall q, getInitState A = Some q -> q ∈ _states A) /\
  _finStates A ⊆ _states A /\
  (forall s a d, getTrans A s a = Some d ->
     s ∈ _states A /\ d ∈ _states A /\ a ∈ _alphabet A).

(** The state in which the transition table leaves the replay of [seq]
    from [q]: the state reached when [seq] is consumed, the state before
    the first missing transition otherwise. *)
Fixpoint reached (dfa : Dfa State Alpha) (q : State) (seq : list Alpha)
    : State :=
  match seq with
  | [] => q
  | a :: rest =>
      match getTrans dfa q a with
      | Some d => reached dfa d rest
      | None => q
      end
  end.

(** What a caller reads back after [play]: the result and the three
    accessors of the player. *)
Definition report {L : Type}
    (o : option (Result * DfaPlayer State Alpha L))
    : option (Result * option State * Z * option Alpha) :=
  (fun rp => (rp.1, getCurState rp.2, _curPos rp.2, getLastSymbol rp.2)) <$> o.

End Notions.

Arguments Mutation State Alpha : clear implicits.

(** ** The instance of the demonstration program and of the tests *)

(** [Dfa<int, char>] and [DfaPlayer<int, char>]. *)
Abbreviation IntCharDfa := (Dfa Z ascii).
Abbreviation IntCharDfaPlayer := (DfaPlayer Z ascii).

(** The automaton of [makeExample1] and [replay1]. *)
Definition example1 : IntCharDfa :=
  Dfa_init 0
    [ (0, "1"%char, 0); (0, "0"%char, 1);
      (1, "0"%char, 1); (1, "1"%char, 2);
      (2, "0"%char, 2); (2, "1"%char, 2) ]
    [ 2 ].

(** The same automaton constructed with 1 as its initial state. *)
Definition example1_from1 : IntCharDfa :=
  Dfa_init 1
    [ (0, "1"%char, 0); (0, "0"%char, 1);
      (1, "0"%char, 1); (1, "1"%char, 2);
      (2, "0"%char, 2); (2, "1"%char, 2) ]
    [ 2 ].

(** A player without a listener ([cb = nullptr]); the listener type is then
    irrelevant and the recorder is used. *)
Definition silent : IntCharDfaPlayer (list (Event Z ascii * Snapshot Z ascii)) :=
  DfaPlayer_new None.

(** A player with a recording listener that has received nothing yet. *)
Definition recording : IntCharDfaPlayer (list (Event Z ascii * Snapshot Z ascii)) :=
  DfaPlayer_new (Some []).

(** ** The demonstration program *)

(** The end-of-line character written by [<< '\n']. *)
Definition nl : string := String "010"%char EmptyString.

(** The text [onTransFired] of the demonstration listener writes to
    [std::cout]: [s << " --[" << a << "]--> " << d << '\n'], an [int]
    being written in decimal and a [char] as itself. *)
Definition trans_line (s : Z) (a : ascii) (d : Z) : string :=
  pretty s +:+ " --[" +:+ String a EmptyString +:+ "]--> " +:+ pretty d +:+ nl.

(** [class IntCharDfaPlayerEventListener].  The listener has no data of its
    own; its state is what has been written to [std::cout].
    [onStateChanging] has an empty body. *)
#[export] Instance IntCharDfaPlayerEventListener
    : IEventListener Z ascii string := {
  onStateChanging _ _ _ out := out;
  onTransFired s a d _ out := out +:+ trans_line s a d
}.

(** The text a recorded call adds to the output of that listener. *)
Definition call_text (e : Event Z ascii * Snapshot Z ascii) : string :=
  match e.1 with
  | StateChanging _ _ => EmptyString
  | TransFired s a d => trans_line s a d
  end.

(** [void test1()], as a function from the output written before the call
    to the output written after it. *)
Definition test1 (out : string) : option string :=
  match play example1 ["1"; "0"; "1"; "0"]%char (DfaPlayer_new (Some out)) with
  | Some (_, player) => getEventListener player
  | None => None
  end.

(** [int main()]: the output of the program. *)
Definition main : option string :=
  match test1 ("Let's do some deterministic automata!" +:+ nl) with
  | Some out => Some (out +:+ nl +:+ nl +:+ "Bye-bye!" +:+ nl +:+ nl)
  | None => None
  end.

(** ** Proof steps *)

(** Equalities between unions of sets with singletons, element by element. *)
Ltac set_by_elements :=
  apply set_eq; intros ?;
  rewrite ?elem_of_union, ?elem_of_singleton, ?elem_of_empty; tauto.

(** ** Facts about the automaton *)

Example example1_counts :
  getStatesNum example1 = 3%nat /\ getSymbolsNum example1 = 2%nat /\
  getTransNum example1 = 6%nat /\ getInitState example1 = Some 0 /\
  getFinStatesNum example1 = 1%nat /\
  getTrans example1 0 "1"%char = Some 0 /\
  getTrans example1 2 "0"%char = Some 2.
Proof. vm_compute. repeat split. Qed.

Section DfaFacts.
Context {State Alpha : Type}.
Context `{Countable State} `{Countable Alpha}.
Implicit Types (A : Dfa State Alpha) (s d q : State) (a : Alpha).
Implicit Types (l : list (StateAlphaState State Alpha)) (fin : list State).

Lemma map_insert_lookup {K V : Type} `{Countable K}
    (k k' : K) (v : V) (m : gmap K V) :
  map_insert k v m !! k' =
    match m !! k' with
    | Some w => Some w
    | None => if decide (k = k') then Some v else None
    end.
Proof.
  unfold map_insert. destruct (m !! k) as [w|] eqn:Hk.
  - destruct (m !! k') as [w'|] eqn:Hk'; [done|].
    case_decide; [congruence | done].
  - rewrite lookup_insert. case_decide as Hd.
    + subst k'. by rewrite Hk.
    + by destruct (m !! k').
Qed.

Lemma map_insert_subseteq {K V : Type} `{Countable K}
    (k : K) (v : V) (m : gmap K V) :
  m ⊆ map_insert k v m.
Proof.
  unfold map_insert. destruct (m !! k) eqn:Hk; [done|].
  by apply insert_subseteq.
Qed.

(** What [getTrans] answers after one [addTrans]: a destination that was
    already recorded for the pair stays. *)
Lemma getTrans_addTrans A s a d s' a' :
  getTrans (addTrans s a d A) s' a' =
    match getTrans A s' a' with
    | Some d' => Some d'
    | None => if decide ((s, a) = (s', a')) then Some d else None
    end.
Proof. unfold getTrans, addTrans. simpl. apply map_insert_lookup. Qed.

Lemma getTrans_addTrans_taken A s a d d' :
  getTrans A s a = Some d' -> getTrans (addTrans s a d A) s a = Some d'.
Proof. intros Hd. rewrite getTrans_addTrans. by rewrite Hd. Qed.

Lemma getTrans_addTrans_free A s a d :
  getTrans A s a = None -> getTrans (addTrans s a d A) s a = Some d.
Proof.
  intros Hd. rewrite getTrans_addTrans, Hd. by rewrite decide_True.
Qed.

(** After a run of [addTrans] calls the table holds, for every pair, the
    destination of the earliest call for that pair. *)
Lemma getTrans_addTransAll l A s a :
  getTrans (addTransAll l A) s a =
    match getTrans A s a with
    | Some d => Some d
    | None => first_dest l s a
    end.
Proof.
  revert A. induction l as [|[[s1 a1] d1] l IH]; intros A; simpl.
  - by destruct (getTrans A s a).
  - unfold addTransAll in *. simpl. rewrite IH, getTrans_addTrans.
    destruct (getTrans A s a) as [d'|]; [done|].
    destruct (decide ((s1, a1) = (s, a))) as [Heq|Hne].
    + inversion Heq; subst. by rewrite decide_True.
    + rewrite decide_False; [done|]. intros [-> ->]. by apply Hne.
Qed.

Lemma addFinStateAll_fields fin A :
  _init (addFinStateAll fin A) = _init A /\
  _transTable (addFinStateAll fin A) = _transTable A /\
  _alphabet (addFinStateAll fin A) = _alphabet A /\
  _states (addFinStateAll fin A) = list_to_set fin ∪ _states A /\
  _finStates (addFinStateAll fin A) = list_to_set fin ∪ _finStates A.
Proof.
  revert A. induction fin as [|s fin IH]; intros A.
  - simpl. repeat split; by rewrite ?union_empty_l_L.
  - unfold addFinStateAll in *. simpl.
    destruct (IH (addFinState s A)) as (-> & -> & -> & -> & ->).
    simpl. repeat split; try done.
    all: rewrite (assoc_L (∪)); f_equal; apply (comm_L (∪)).
Qed.

Lemma addState_first s :
  getInitState (addState s (Dfa_default (State:=State) (Alpha:=Alpha))) = Some s.
Proof. reflexivity. Qed.

Lemma addTrans_first s a d :
  getInitState (addTrans s a d (Dfa_default (State:=State) (Alpha:=Alpha)))
    = Some s.
Proof.
  unfold addTrans, addSymbol, addState, getInitState, Dfa_default.
  cbn [_init _states].
  rewrite (decide_True (P := size (∅ : gset State) = 0%nat))
    by apply size_empty.
  rewrite decide_False; [done|].
  rewrite union_empty_r_L, size_singleton. lia.
Qed.

Lemma addTransAll_finStates l A :
  _finStates (addTransAll l A) = _finStates A.
Proof.
  revert A. induction l as [|t l IH]; intros A; [done|].
  unfold addTransAll in *. simpl. by rewrite IH.
Qed.

Lemma addTransAll_grows_states l A : _states A ⊆ _states (addTransAll l A).
Proof.
  revert A. induction l as [|t l IH]; intros A; [done|].
  unfold addTransAll in *. simpl. etrans; [|apply IH]. simpl. set_solver.
Qed.

(** The bulk constructor, by the three steps of its body. *)
Lemma Dfa_init_unfold (init : State) l fin :
  Dfa_init init l fin =
    addFinStateAll fin (assignInitState init (addTransAll l Dfa_default)).
Proof. reflexivity. Qed.

Lemma Dfa_init_fields (init : State) l fin :
  getInitState (Dfa_init init l fin) = Some init /\
  hasState (Dfa_init init l fin) init = true /\
  (forall s, hasFinState (Dfa_init init l fin) s = bool_decide (s ∈ fin)).
Proof.
  rewrite Dfa_init_unfold.
  destruct (addFinStateAll_fields fin
              (assignInitState init (addTransAll l Dfa_default)))
    as (Hi & _ & _ & Hs & Hf).
  unfold getInitState, hasState, hasFinState.
  rewrite Hi, Hs, Hf. simpl. rewrite addTransAll_finStates. simpl.
  split; [done|]. split.
  - apply bool_decide_eq_true.
    apply elem_of_union; right. apply elem_of_union; left.
    by apply elem_of_singleton.
  - intros s. apply bool_decide_ext.
    rewrite union_empty_r_L. apply elem_of_list_to_set.
Qed.

Lemma Dfa_init_getTrans (init : State) l fin s a :
  getTrans (Dfa_init init l fin) s a = first_dest l s a.
Proof.
  rewrite Dfa_init_unfold. unfold getTrans.
  destruct (addFinStateAll_fields fin
              (assignInitState init (addTransAll l Dfa_default)))
    as (_ & -> & _).
  cbn [assignInitState addState _transTable].
  fold (getTrans (addTransAll l Dfa_default) s a).
  rewrite getTrans_addTransAll. unfold getTrans. simpl.
  by rewrite lookup_empty.
Qed.

(** Every operation keeps what the automaton holds. *)
Lemma addState_grows s A : grows A (addState s A).
Proof. unfold grows. simpl. repeat split; set_solver. Qed.

Lemma addSymbol_grows a A : grows A (addSymbol a A).
Proof. unfold grows. simpl. repeat split; set_solver. Qed.

Lemma addFinState_grows s A : grows A (addFinState s A).
Proof. unfold grows. simpl. repeat split; set_solver. Qed.

Lemma assignInitState_grows s A : grows A (assignInitState s A).
Proof. unfold grows. simpl. repeat split; set_solver. Qed.

Lemma addTrans_grows s a d A : grows A (addTrans s a d A).
Proof.
  unfold grows. simpl. repeat split; try set_solver.
  apply map_insert_subseteq.
Qed.

Lemma grows_counters A B :
  grows A B ->
  (getStatesNum A <= getStatesNum B)%nat /\
  (getSymbolsNum A <= getSymbolsNum B)%nat /\
  (getTransNum A <= getTransNum B)%nat /\
  (getFinStatesNum A <= getFinStatesNum B)%nat.
Proof.
  intros (Hs & Ha & Ht & Hf).
  unfold getStatesNum, getSymbolsNum, getTransNum, getFinStatesNum.
  repeat split.
  - by apply subseteq_size.
  - by apply subseteq_size.
  - by apply map_subseteq_size.
  - by apply subseteq_size.
Qed.

(** [addState], [addSymbol], [addTrans] and [addFinState] only grow the
    automaton: the states, the symbols, the transitions and the accepting
    states it held before the call are still there after it, every
    transition with the destination it had, and none of the four counters
    decreases. *)
Theorem insertions_only_grow (m : Mutation State Alpha) (A : Dfa State Alpha) :
  grows A (mutate m A)
  /\ (forall s, hasState A s = true -> hasState (mutate m A) s = true)
  /\ (forall s, hasFinState A s = true -> hasFinState (mutate m A) s = true)
  /\ (forall s a d, getTrans A s a = Some d -> getTrans (mutate m A) s a = Some d)
  /\ (getStatesNum A <= getStatesNum (mutate m A))%nat
  /\ (getSymbolsNum A <= getSymbolsNum (mutate m A))%nat
  /\ (getTransNum A <= getTransNum (mutate m A))%nat
  /\ (getFinStatesNum A <= getFinStatesNum (mutate m A))%nat.
Proof.
  assert (Hg : grows A (mutate m A)).
  { destruct m; simpl.
    - apply addState_grows.
    - apply addSymbol_grows.
    - apply addTrans_grows.
    - apply addFinState_grows. }
  split; [exact Hg|].
  pose proof (grows_counters _ _ Hg) as (Hn1 & Hn2 & Hn3 & Hn4).
  destruct Hg as (Hs & Ha & Ht & Hf).
  repeat split; try assumption.
  - intros s Hin. unfold hasState in *.
    apply bool_decide_eq_true. apply bool_decide_eq_true in Hin. set_solver.
  - intros s Hin. unfold hasFinState in *.
    apply bool_decide_eq_true. apply bool_decide_eq_true in Hin. set_solver.
  - intros s a d Hd. unfold getTrans in *.
    eapply lookup_weaken; eassumption.
Qed.

End DfaFacts.

(** C1. Two [addTrans] calls for the same state and symbol, first with
    destination 1 and then with destination 2: [getTrans] answers with the
    destination of the first call, not with the one of the most recent
    call; the table still holds one transition, and the second destination
    has been added to the states all the same. *)
Theorem addTrans_twice_keeps_first_destination :
  let A := addTrans 0 "a"%char 2
             (addTrans 0 "a"%char 1 (Dfa_default (State:=Z) (Alpha:=ascii))) in
  getTrans A 0 "a"%char = Some 1 /\
  getTransNum A = 1%nat /\ hasState A 2 = true.
Proof. vm_compute. repeat split. Qed.

(** C4. A first state that enters the automaton through [addFinState] does
    not become the initial state: the initial state stays unassigned, also
    after a later [addState], although the state itself is recorded. *)
Theorem addFinState_first_leaves_init_unassigned :
  let A := addFinState 7 (Dfa_default (State:=Z) (Alpha:=ascii)) in
  getInitState A = None /\
  hasState A 7 = true /\ getStatesNum A = 1%nat /\
  getInitState (addState 8 A) = None /\
  getInitState (addState 7 Dfa_default : IntCharDfa) = Some 7 /\
  getInitState (addTrans 7 "a"%char 8 Dfa_default : IntCharDfa) = Some 7.
Proof. vm_compute. repeat split. Qed.

(** C5. The bulk constructor with two triples for the same state and
    symbol, first with destination 1 and then with destination 2: the
    automaton holds the destination of the first triple, the later triple
    has not overwritten it, and only one transition is recorded; the
    initial state is the given one. *)
Theorem Dfa_init_keeps_first_triple :
  let A : IntCharDfa :=
    Dfa_init 0 [ (0, "a"%char, 1); (0, "a"%char, 2) ] [] in
  getTrans A 0 "a"%char = Some 1 /\
  getTransNum A = 1%nat /\
  hasState A 2 = true /\
  getInitState A = Some 0.
Proof. vm_compute. repeat split. Qed.


(** ** Facts about machine integers *)

Lemma int_wrap_in_range z : in_int z -> int_wrap z = z.
Proof.
  unfold in_int, INT_MIN, INT_MAX, int_wrap. intros Hz.
  rewrite Z.mod_small; lia.
Qed.

Lemma int_incr_no_overflow z : INT_MIN <= z < INT_MAX -> int_incr z = z + 1.
Proof.
  intros Hz. unfold int_incr. apply int_wrap_in_range.
  unfold in_int. lia.
Qed.

Lemma int_incr_in_int z : in_int (int_incr z).
Proof.
  unfold in_int, int_incr, int_wrap, INT_MIN, INT_MAX.
  pose proof (Z.mod_pos_bound (z + 1 + 2147483648) 4294967296). lia.
Qed.

Lemma iter_int_incr (n : nat) z :
  INT_MIN <= z -> z + Z.of_nat n <= INT_MAX ->
  Nat.iter n int_incr z = z + Z.of_nat n.
Proof.
  induction n as [|n IH]; intros Hlo Hhi; simpl.
  - lia.
  - rewrite IH by lia. rewrite int_incr_no_overflow; lia.
Qed.

(** ** Facts about the player *)

Section PlayerFacts.
Context {State Alpha : Type}.
Context `{Countable State} `{Countable Alpha}.
Context {L : Type} `{IEventListener State Alpha L}.
Context `{FromInt State}.
Implicit Types (dfa : Dfa State Alpha) (p : DfaPlayer State Alpha L).
Implicit Types (q d : State) (a : Alpha) (seq pre rest : list Alpha).

Lemma init_assigned dfa p q0 :
  getInitState dfa = Some q0 ->
  init dfa p =
    Some (tt, {| _curState := Some q0; _curPos := 0;
                 _lastSymb := _lastSymb p;
                 _cb := onStateChanging q0 q0
                          {| seen_state := Some q0; seen_pos := 0;
                             seen_symb := _lastSymb p |} <$> _cb p |}).
Proof.
  intros Hq0. unfold init, bindM, assigned. rewrite Hq0. reflexivity.
Qed.

Lemma init_unassigned dfa p : getInitState dfa = None -> init dfa p = None.
Proof. intros Hq0. unfold init, bindM, assigned. by rewrite Hq0. Qed.

Lemma replaySymb_fires dfa a p q d :
  _curState p = Some q -> getTrans dfa q a = Some d ->
  replaySymb dfa a p =
    Some (true, {| _curState := Some d; _curPos := int_incr (_curPos p);
                   _lastSymb := Some a;
                   _cb := onTransFired q a d
                            {| seen_state := Some q; seen_pos := _curPos p;
                               seen_symb := Some a |} <$> _cb p |}).
Proof.
  intros Hq Hd. unfold replaySymb, bindM, write_lastSymb, read_curState,
    assigned. cbn [_curState]. rewrite Hq, Hd. reflexivity.
Qed.

Lemma replaySymb_stuck dfa a p q :
  _curState p = Some q -> getTrans dfa q a = None ->
  replaySymb dfa a p =
    Some (false, {| _curState := _curState p; _curPos := _curPos p;
                    _lastSymb := Some a; _cb := _cb p |}).
Proof.
  intros Hq Hd. unfold replaySymb, bindM, write_lastSymb, read_curState,
    assigned. cbn [_curState]. rewrite Hq, Hd. reflexivity.
Qed.

Lemma play_loop_nil dfa p q :
  _curState p = Some q ->
  play_loop dfa [] p =
    Some (if hasFinState dfa q then Ok else NonFinState, p).
Proof.
  intros Hq. simpl. unfold bindM, read_curState, assigned. rewrite Hq.
  by destruct (hasFinState dfa q).
Qed.

Lemma play_loop_stuck dfa a rest p q :
  _curState p = Some q -> getTrans dfa q a = None ->
  play_loop dfa (a :: rest) p =
    Some (NoTrans, {| _curState := _curState p; _curPos := _curPos p;
                      _lastSymb := Some a; _cb := _cb p |}).
Proof.
  intros Hq Hd. simpl. unfold bindM.
  by rewrite (replaySymb_stuck dfa a p q Hq Hd).
Qed.

(** The loop over a prefix whose transitions all exist: it leaves the
    player in the state reached, with the position advanced once per
    symbol, and has handed the transitions taken to the listener. *)
Lemma play_loop_consumes dfa pre p q q' :
  _curState p = Some q -> run dfa q pre = Some q' ->
  exists p',
    (forall rest, play_loop dfa (pre ++ rest) p = play_loop dfa rest p') /\
    _curState p' = Some q' /\
    _curPos p' = Nat.iter (length pre) int_incr (_curPos p) /\
    _lastSymb p' = (match last pre with
                    | Some a => Some a
                    | None => _lastSymb p
                    end) /\
    _cb p' = received (fired dfa q (_curPos p) pre) (_cb p).
Proof.
  revert p q. induction pre as [|a pre IH]; intros p q Hq Hrun.
  - simpl in Hrun. injection Hrun as <-. exists p. simpl.
    repeat split; try done. unfold received. by destruct (_cb p).
  - simpl in Hrun. destruct (getTrans dfa q a) as [d|] eqn:Hd; [|done].
    pose proof (replaySymb_fires dfa a p q d Hq Hd) as Hstep.
    match type of Hstep with _ = Some (_, ?p1) =>
      destruct (IH p1 d eq_refl Hrun) as (p' & Hloop & Hst & Hpos & Hsym & Hcb)
    end.
    exists p'. repeat split.
    + intros rest. simpl. unfold bindM. rewrite Hstep. simpl. apply Hloop.
    + exact Hst.
    + rewrite Hpos. cbn [_curPos length]. by rewrite Nat.iter_succ_r.
    + rewrite Hsym. cbn [_lastSymb]. rewrite last_cons.
      by destruct (last pre).
    + rewrite Hcb. cbn [_cb _curPos]. simpl fired. rewrite Hd.
      unfold received. by destruct (_cb p).
Qed.

Lemma received_cons e evs (cb : option L) :
  received (e :: evs) cb = received evs ((fun l => deliver l e) <$> cb).
Proof. unfold received. by destruct cb. Qed.

Lemma received_attached evs (l : L) :
  received evs (Some l) = Some (foldl deliver l evs).
Proof. reflexivity. Qed.

(** [play] over a prefix whose transitions all exist, up to the point
    where the loop goes on with the rest of the sequence. *)
Lemma play_consumes dfa pre p q0 q :
  getInitState dfa = Some q0 -> run dfa q0 pre = Some q ->
  exists p',
    (forall rest, play dfa (pre ++ rest) p = play_loop dfa rest p') /\
    _curState p' = Some q /\
    _curPos p' = Nat.iter (length pre) int_incr 0 /\
    _lastSymb p' = (match last pre with
                    | Some a => Some a
                    | None => _lastSymb p
                    end) /\
    _cb p' =
      received
        ((StateChanging q0 q0,
          {| seen_state := Some q0; seen_pos := 0;
             seen_symb := _lastSymb p |}) :: fired dfa q0 0 pre)
        (_cb p).
Proof.
  intros Hq0 Hrun. pose proof (init_assigned dfa p q0 Hq0) as Hinit.
  match type of Hinit with _ = Some (_, ?p0) =>
    destruct (play_loop_consumes dfa pre p0 q0 q eq_refl Hrun)
      as (p' & Hloop & Hst & Hpos & Hsym & Hcb)
  end.
  exists p'. repeat split; try assumption.
  - intros rest. unfold play, bindM. rewrite Hinit. apply Hloop.
  - rewrite Hcb. cbn [_cb _curPos]. rewrite received_cons.
    unfold deliver. cbn [fst snd]. reflexivity.
Qed.

(** The transitions taken along a sequence that is consumed to its end:
    one per symbol, the i-th from the state reached after i symbols. *)
Lemma fired_consumed dfa seq q pos q' :
  run dfa q seq = Some q' ->
  length (fired dfa q pos seq) = length seq /\
  forall (i : nat) a, seq !! i = Some a ->
    exists s d,
      run dfa q (take i seq) = Some s /\
      getTrans dfa s a = Some d /\
      run dfa q (take (S i) seq) = Some d /\
      fired dfa q pos seq !! i =
        Some (TransFired s a d,
              {| seen_state := Some s;
                 seen_pos := Nat.iter i int_incr pos;
                 seen_symb := Some a |}).
Proof.
  revert q pos. induction seq as [|b seq IH]; intros q pos Hrun.
  - split; [done|]. intros i a Hi. by rewrite lookup_nil in Hi.
  - simpl in Hrun. destruct (getTrans dfa q b) as [d|] eqn:Hd; [|done].
    destruct (IH d (int_incr pos) Hrun) as [Hlen Hnth]. split.
    + simpl. rewrite Hd. simpl. by rewrite Hlen.
    + intros [|i] a Hi.
      * simpl in Hi. injection Hi as ->. exists q, d.
        simpl. by rewrite Hd.
      * simpl in Hi. destruct (Hnth i a Hi) as (s & d' & Hs & Hd' & Hs' & Hev).
        exists s, d'. simpl. rewrite Hd. simpl.
        repeat split; try assumption.
        rewrite Hev. by rewrite <- Nat.iter_succ_r.
Qed.

(** Positions handed to the listener while the position cannot overflow. *)
Lemma fired_positions dfa seq q pos :
  0 <= pos -> pos + Z.of_nat (length seq) <= INT_MAX ->
  Forall (fun e => pos <= seen_pos e.2 < pos + Z.of_nat (length seq))
    (fired dfa q pos seq).
Proof.
  revert q pos. induction seq as [|a seq IH]; intros q pos Hlo Hhi; simpl.
  - constructor.
  - destruct (getTrans dfa q a) as [d|]; [|constructor].
    cbn [length] in Hhi. constructor.
    + simpl. lia.
    + rewrite int_incr_no_overflow by (unfold INT_MIN, INT_MAX in *; lia).
      eapply Forall_impl; [apply IH; lia|].
      intros e He. simpl in He. lia.
Qed.

(** The loop always returns once the current state is assigned; it hands
    the listener the transitions taken up to the first missing one and
    moves the position by at most one per symbol. *)
Lemma play_loop_returns dfa seq p q :
  _curState p = Some q ->
  exists r p',
    play_loop dfa seq p = Some (r, p') /\
    is_Some (_curState p') /\
    _cb p' = received (fired dfa q (_curPos p) seq) (_cb p) /\
    (0 <= _curPos p -> _curPos p + Z.of_nat (length seq) <= INT_MAX ->
     _curPos p <= _curPos p' <= _curPos p + Z.of_nat (length seq)).
Proof.
  revert p q. induction seq as [|a seq IH]; intros p q Hq.
  - exists (if hasFinState dfa q then Ok else NonFinState), p.
    split; [by apply play_loop_nil|]. split; [by rewrite Hq|]. split.
    + unfold received. by destruct (_cb p).
    + simpl. lia.
  - destruct (getTrans dfa q a) as [d|] eqn:Hd.
    + pose proof (replaySymb_fires dfa a p q d Hq Hd) as Hstep.
      match type of Hstep with _ = Some (_, ?p1) =>
        destruct (IH p1 d eq_refl) as (r & p' & Hloop & Hst & Hcb & Hpos)
      end.
      exists r, p'. split; [|split; [exact Hst|split]].
      * simpl. unfold bindM. rewrite Hstep. simpl. exact Hloop.
      * rewrite Hcb. cbn [_cb _curPos]. simpl fired. rewrite Hd.
        unfold received. by destruct (_cb p).
      * cbn [length]. intros Hlo Hhi. cbn [_curPos] in Hpos.
        rewrite int_incr_no_overflow in Hpos
          by (unfold INT_MIN, INT_MAX in *; lia).
        lia.
    + eexists NoTrans, _. split; [by apply (play_loop_stuck dfa a seq p q)|].
      cbn [_curState _curPos _cb]. split; [by rewrite Hq|]. split.
      * simpl. rewrite Hd. unfold received. by destruct (_cb p).
      * cbn [length]. lia.
Qed.

(** The outcome of the loop depends on the current state and position
    only, not on the last symbol or on the listener. *)
Lemma play_loop_outcome dfa seq p1 p2 r1 r2 p1' p2' :
  _curState p1 = _curState p2 -> _curPos p1 = _curPos p2 ->
  play_loop dfa seq p1 = Some (r1, p1') ->
  play_loop dfa seq p2 = Some (r2, p2') ->
  r1 = r2 /\ _curState p1' = _curState p2' /\ _curPos p1' = _curPos p2'.
Proof.
  revert p1 p2. induction seq as [|a seq IH]; intros p1 p2 Hst Hpos H1' H2'.
  - destruct (_curState p1) as [q|] eqn:Hq1.
    + rewrite (play_loop_nil dfa p1 q Hq1) in H1'.
      rewrite (play_loop_nil dfa p2 q (eq_sym Hst)) in H2'.
      injection H1' as <- <-. injection H2' as <- <-.
      by rewrite Hq1.
    + simpl in H1'. unfold bindM, read_curState, assigned in H1'.
      by rewrite Hq1 in H1'.
  - destruct (_curState p1) as [q|] eqn:Hq1.
    + symmetry in Hst. destruct (getTrans dfa q a) as [d|] eqn:Hd.
      * simpl in H1', H2'. unfold bindM in H1', H2'.
        rewrite (replaySymb_fires dfa a p1 q d Hq1 Hd) in H1'.
        rewrite (replaySymb_fires dfa a p2 q d Hst Hd) in H2'.
        simpl in H1', H2'.
        eapply IH; [| |exact H1'|exact H2']; cbn [_curState _curPos];
          congruence.
      * rewrite (play_loop_stuck dfa a seq p1 q Hq1 Hd) in H1'.
        rewrite (play_loop_stuck dfa a seq p2 q Hst Hd) in H2'.
        injection H1' as <- <-. injection H2' as <- <-.
        cbn [_curState _curPos]. by rewrite Hq1, Hst.
    + simpl in H1'.
      unfold bindM, replaySymb, bindM, write_lastSymb, read_curState,
        assigned in H1'.
      cbn [_curState] in H1'. by rewrite Hq1 in H1'.
Qed.

(** C2. When the transitions along the first i symbols exist and the
    state they lead to has no transition for the symbol at index i, [play]
    returns [NoTrans]; the position is i, the last symbol is the unmatched
    one and the current state is the one reached before it; the symbols
    after index i play no part in the outcome, and the listener has been
    handed the i transitions taken and nothing after them. *)
Theorem play_stops_at_missing_transition dfa pre a post p q0 q :
  getInitState dfa = Some q0 ->
  run dfa q0 pre = Some q ->
  getTrans dfa q a = None ->
  Z.of_nat (length pre) <= INT_MAX ->
  exists p',
    play dfa (pre ++ a :: post) p = Some (NoTrans, p') /\
    _curPos p' = Z.of_nat (length pre) /\
    getCurPos p' = from_int (Z.of_nat (length pre)) /\
    getLastSymbol p' = Some a /\
    getCurState p' = Some q /\
    (forall post', play dfa (pre ++ a :: post') p = Some (NoTrans, p')) /\
    _cb p' =
      received
        ((StateChanging q0 q0,
          {| seen_state := Some q0; seen_pos := 0;
             seen_symb := _lastSymb p |}) :: fired dfa q0 0 pre)
        (_cb p) /\
    length (fired dfa q0 0 pre) = length pre.
Proof.
  intros Hq0 Hrun Hnone Hlen.
  destruct (play_consumes dfa pre p q0 q Hq0 Hrun)
    as (p1 & Hplay & Hst & Hpos & Hsym & Hcb).
  assert (Hi : _curPos p1 = Z.of_nat (length pre)).
  { rewrite Hpos, iter_int_incr; unfold INT_MIN; lia. }
  assert (Hstop : forall rest,
            play dfa (pre ++ a :: rest) p =
              Some (NoTrans, {| _curState := _curState p1;
                                _curPos := _curPos p1;
                                _lastSymb := Some a; _cb := _cb p1 |})).
  { intros rest. rewrite Hplay. by apply (play_loop_stuck dfa a rest p1 q). }
  eexists. split; [apply Hstop|].
  unfold getCurPos, getLastSymbol, getCurState.
  cbn [_curPos _lastSymb _curState _cb].
  split; [exact Hi|]. split; [by rewrite Hi|]. split; [done|].
  split; [exact Hst|]. split; [exact Hstop|]. split; [exact Hcb|].
  by destruct (fired_consumed dfa pre q0 0 q Hrun).
Qed.

(** A sequence consumed to its end: the result is decided by the state
    reached, and the accessors report that state, the number of symbols and
    the last of them. *)
Lemma play_consumed_result dfa seq p q0 q :
  getInitState dfa = Some q0 ->
  run dfa q0 seq = Some q ->
  exists p',
    play dfa seq p =
      Some (if hasFinState dfa q then Ok else NonFinState, p') /\
    getCurState p' = Some q /\
    _curPos p' = Nat.iter (length seq) int_incr 0 /\
    getLastSymbol p' = (match last seq with
                        | Some a => Some a
                        | None => _lastSymb p
                        end).
Proof.
  intros Hq0 Hrun.
  destruct (play_consumes dfa seq p q0 q Hq0 Hrun)
    as (p' & Hplay & Hst & Hpos & Hsym & _).
  exists p'. repeat split; try assumption.
  specialize (Hplay []). rewrite app_nil_r in Hplay. rewrite Hplay.
  by apply play_loop_nil.
Qed.

(** C6. For a sequence of n symbols that is consumed to its end, an
    attached listener is handed one [onStateChanging] call, with the
    initial state as both arguments, and then n [onTransFired] calls in
    input order; the i-th reports the state reached after i symbols, the
    symbol at index i and the destination the table gives, and is made
    while the player is still in the source state. *)
Theorem listener_calls_in_order dfa seq p (l : L) q0 q :
  getInitState dfa = Some q0 ->
  run dfa q0 seq = Some q ->
  _cb p = Some l ->
  exists r p' v0 evs,
    play dfa seq p = Some (r, p') /\
    _cb p' = Some (foldl deliver l ((StateChanging q0 q0, v0) :: evs)) /\
    seen_state v0 = Some q0 /\
    length evs = length seq /\
    forall (i : nat) a, seq !! i = Some a ->
      exists s d v,
        evs !! i = Some (TransFired s a d, v) /\
        run dfa q0 (take i seq) = Some s /\
        getTrans dfa s a = Some d /\
        run dfa q0 (take (S i) seq) = Some d /\
        seen_state v = Some s.
Proof.
  intros Hq0 Hrun Hl.
  destruct (play_consumes dfa seq p q0 q Hq0 Hrun)
    as (p' & Hplay & Hst & _ & _ & Hcb).
  destruct (fired_consumed dfa seq q0 0 q Hrun) as [Hlen Hnth].
  specialize (Hplay []). rewrite app_nil_r in Hplay.
  rewrite (play_loop_nil dfa p' q Hst) in Hplay.
  eexists _, p', _, (fired dfa q0 0 seq). split; [exact Hplay|].
  split; [by rewrite Hcb, Hl|]. split; [done|]. split; [exact Hlen|].
  intros i a Hi. destruct (Hnth i a Hi) as (s & d & Hs & Hd & Hs' & Hev).
  by eexists s, d, _.
Qed.

(** C7. Two [play] calls in succession with the same sequence on the same
    automaton: both return, with the same result, the same current state
    and the same position. *)
Theorem play_twice_same_outcome dfa seq p q0 :
  getInitState dfa = Some q0 ->
  exists r p1 p2,
    play dfa seq p = Some (r, p1) /\
    play dfa seq p1 = Some (r, p2) /\
    getCurState p2 = getCurState p1 /\
    _curPos p2 = _curPos p1 /\
    getCurPos p2 = getCurPos p1.
Proof.
  intros Hq0.
  pose proof (init_assigned dfa p q0 Hq0) as Hinit1.
  match type of Hinit1 with _ = Some (_, ?p0) =>
    destruct (play_loop_returns dfa seq p0 q0 eq_refl)
      as (r1 & p1 & Hloop1 & _)
  end.
  pose proof (init_assigned dfa p1 q0 Hq0) as Hinit2.
  match type of Hinit2 with _ = Some (_, ?p0) =>
    destruct (play_loop_returns dfa seq p0 q0 eq_refl)
      as (r2 & p2 & Hloop2 & _)
  end.
  pose proof (fun Hs Hp =>
    play_loop_outcome dfa seq _ _ _ _ _ _ Hs Hp Hloop1 Hloop2) as Hout.
  destruct (Hout eq_refl eq_refl) as (Hr & Hst & Hpos).
  subst r2. exists r1, p1, p2. unfold play, bindM, getCurState, getCurPos.
  rewrite Hinit1, Hinit2, Hloop1, Hloop2.
  repeat split; congruence.
Qed.

(** C8 (amended). A freshly constructed player returns the sentinel -1,
    converted to [State], from [getCurPos]; its current state and its last
    symbol have not been assigned.  After a [play] over a sequence of at
    most [INT_MAX] symbols the position lies between 0 and the length of
    the sequence, and so do the positions a listener sees during the run:
    the sentinel does not occur. *)
Theorem position_sentinel_only (cb : option L) :
  let fresh : DfaPlayer State Alpha L := DfaPlayer_new cb in
  _curPos fresh = -1 /\
  getCurPos fresh = from_int (-1) /\
  getCurState fresh = None /\
  getLastSymbol fresh = None /\
  forall dfa seq p r p',
    Z.of_nat (length seq) <= INT_MAX ->
    play dfa seq p = Some (r, p') ->
    0 <= _curPos p' <= Z.of_nat (length seq) /\
    _curPos p' <> -1 /\
    is_Some (getCurState p') /\
    exists evs,
      _cb p' = received evs (_cb p) /\
      Forall (fun e => 0 <= seen_pos e.2 <= Z.of_nat (length seq)) evs.
Proof.
  intros fresh. repeat split; try reflexivity.
  all: destruct (getInitState dfa) as [q0|] eqn:Hq0;
    [|unfold play, bindM in *; by rewrite (init_unassigned dfa p Hq0) in *].
  all: pose proof (init_assigned dfa p q0 Hq0) as Hinit.
  all: match type of Hinit with _ = Some (_, ?p0) =>
         destruct (play_loop_returns dfa seq p0 q0 eq_refl)
           as (r1 & p1 & Hloop & Hst & Hcb & Hpos)
       end.
  all: cbn [_curPos _cb] in Hpos, Hcb.
  all: assert (Heq : p' = p1)
         by (unfold play, bindM in *; rewrite Hinit, Hloop in *; congruence).
  all: subst p1.
  all: try (unfold INT_MAX in *; lia).
  - exact Hst.
  - eexists ((StateChanging q0 q0, _) :: fired dfa q0 0 seq).
    split.
    + rewrite Hcb, received_cons. unfold deliver. cbn [fst snd]. reflexivity.
    + constructor; [simpl; lia|].
      eapply Forall_impl; [apply fired_positions; lia|].
      intros e He. simpl in He. lia.
Qed.

(** C9. [play] on the empty sequence never returns [NoTrans]; with an
    initial state it returns [Ok] when that state is accepting and
    [NonFinState] otherwise, leaves the position at 0 and the current state
    at the initial state, and an attached listener is handed one
    [onStateChanging] call with the initial state twice and nothing else. *)
Theorem play_empty_sequence dfa p :
  (forall p', play dfa [] p <> Some (NoTrans, p')) /\
  forall q0, getInitState dfa = Some q0 ->
    exists p' v0,
      play dfa [] p =
        Some (if hasFinState dfa q0 then Ok else NonFinState, p') /\
      _curPos p' = 0 /\
      getCurPos p' = from_int 0 /\
      getCurState p' = Some q0 /\
      seen_state v0 = Some q0 /\
      forall l, _cb p = Some l ->
        _cb p' = Some (onStateChanging q0 q0 v0 l) /\
        _cb p' = Some (foldl deliver l [(StateChanging q0 q0, v0)]).
Proof.
  assert (Hgen : forall q0, getInitState dfa = Some q0 ->
            exists p' v0,
              play dfa [] p =
                Some (if hasFinState dfa q0 then Ok else NonFinState, p') /\
              _curPos p' = 0 /\
              getCurPos p' = from_int 0 /\
              getCurState p' = Some q0 /\
              seen_state v0 = Some q0 /\
              forall l, _cb p = Some l ->
                _cb p' = Some (onStateChanging q0 q0 v0 l) /\
                _cb p' = Some (foldl deliver l [(StateChanging q0 q0, v0)])).
  { intros q0 Hq0. pose proof (init_assigned dfa p q0 Hq0) as Hinit.
    eexists _, {| seen_state := Some q0; seen_pos := 0;
                  seen_symb := _lastSymb p |}.
    split.
    { unfold play, bindM. rewrite Hinit. by apply play_loop_nil. }
    unfold getCurPos, getCurState. cbn [_curPos _curState _cb].
    do 4 (split; [done|]).
    intros l Hl. by rewrite Hl. }
  split; [|exact Hgen].
  intros p' Hplay. destruct (getInitState dfa) as [q0|] eqn:Hq0.
  - destruct (Hgen q0 eq_refl) as (p1 & v0 & Hp & _).
    rewrite Hp in Hplay. by destruct (hasFinState dfa q0).
  - unfold play, bindM in Hplay. by rewrite (init_unassigned dfa p Hq0) in Hplay.
Qed.

End PlayerFacts.

(** A recording listener holds the calls it has received, in order. *)
Lemma recorder_log {State Alpha : Type}
    (evs log : list (Event State Alpha * Snapshot State Alpha)) :
  foldl deliver log evs = log ++ evs.
Proof.
  revert log. induction evs as [|[e v] evs IH]; intros log; simpl.
  - by rewrite app_nil_r.
  - rewrite IH. unfold deliver. simpl. destruct e; simpl; by rewrite <- app_assoc.
Qed.

(** ** The replay of the tests *)

Example replay1 :
  fst <$> play example1 ["0"; "1"]%char silent = Some Ok /\
  fst <$> play example1 ["0"; "0"; "1"]%char silent = Some Ok /\
  fst <$> play example1 ["1"; "0"; "1"; "0"]%char silent = Some Ok /\
  fst <$> play example1 ["1"; "0"; "0"]%char silent = Some NonFinState.
Proof. vm_compute. repeat split. Qed.

(** C3. When all symbols are consumed without a missing transition, [play]
    returns [Ok] if the state reached is accepting and [NonFinState]
    otherwise, and the current state is the state reached.  On the
    automaton of the tests, [play] of '1','0','0' returns [NonFinState]
    with final state 1, final position 3 and last symbol '0'. *)
Theorem play_result_by_final_state :
  (forall (State Alpha : Type) `{Countable State} `{Countable Alpha}
      (L : Type) `{IEventListener State Alpha L}
      (dfa : Dfa State Alpha) (seq : list Alpha)
      (p : DfaPlayer State Alpha L) (q0 q : State),
      getInitState dfa = Some q0 ->
      run dfa q0 seq = Some q ->
      exists p',
        play dfa seq p =
          Some (if hasFinState dfa q then Ok else NonFinState, p') /\
        getCurState p' = Some q)
  /\
  (forall (L : Type) `{IEventListener Z ascii L} (p : IntCharDfaPlayer L),
      exists p',
        play example1 ["1"; "0"; "0"]%char p = Some (NonFinState, p') /\
        getCurState p' = Some 1 /\
        getCurPos p' = 3 /\
        getLastSymbol p' = Some "0"%char).
Proof.
  split.
  - intros State Alpha ? ? ? ? L ? dfa seq p q0 q Hq0 Hrun.
    destruct (play_consumed_result dfa seq p q0 q Hq0 Hrun)
      as (p' & Hplay & Hst & _).
    by exists p'.
  - intros L ? p.
    destruct (play_consumed_result example1 ["1"; "0"; "0"]%char p 0 1
                eq_refl eq_refl) as (p' & Hplay & Hst & Hpos & Hsym).
    exists p'. split; [exact Hplay|]. split; [exact Hst|].
    split; [|exact Hsym].
    unfold getCurPos. rewrite Hpos. reflexivity.
Qed.

(** C8 (as stated). The current state and the last symbol of a freshly
    constructed player are not defined values. *)
Lemma fresh_player_state_not_defined :
  ~ (is_Some (getCurState silent) /\ is_Some (getLastSymbol silent) /\
     getCurPos silent = -1).
Proof. intros [[q Hq] _]. discriminate Hq. Qed.

(** ** The theorems at concrete inputs *)

(** C2 on the automaton of the tests: the symbol '2' at index 1 has no
    transition from state 0. *)
Lemma play_stops_at_missing_transition_witness :
  getInitState example1 = Some 0 /\
  run example1 0 ["1"]%char = Some 0 /\
  getTrans example1 0 "2"%char = None /\
  Z.of_nat (length ["1"%char]) <= INT_MAX /\
  exists p',
    play example1 (["1"] ++ "2" :: ["1"; "0"])%char recording
      = Some (NoTrans, p') /\
    _curPos p' = 1 /\ getLastSymbol p' = Some "2"%char /\
    getCurState p' = Some 0.
Proof.
  assert (H1 : getInitState example1 = Some 0) by reflexivity.
  assert (H2 : run example1 0 ["1"]%char = Some 0) by reflexivity.
  assert (H3 : getTrans example1 0 "2"%char = None) by reflexivity.
  assert (H4 : Z.of_nat (length ["1"%char]) <= INT_MAX)
    by (vm_compute; discriminate).
  do 4 (split; [assumption|]).
  destruct (play_stops_at_missing_transition example1 ["1"]%char "2"%char
              ["1"; "0"]%char recording 0 0 H1 H2 H3 H4)
    as (p' & Hplay & Hpos & _ & Hsym & Hst & _).
  exists p'. repeat split; assumption.
Defined.

(** C3 on the first replay of the tests. *)
Lemma play_result_by_final_state_witness :
  getInitState example1 = Some 0 /\
  run example1 0 ["0"; "1"]%char = Some 2 /\
  exists p',
    play example1 ["0"; "1"]%char silent =
      Some (if hasFinState example1 2 then Ok else NonFinState, p') /\
    getCurState p' = Some 2.
Proof.
  assert (H1 : getInitState example1 = Some 0) by reflexivity.
  assert (H2 : run example1 0 ["0"; "1"]%char = Some 2) by reflexivity.
  do 2 (split; [assumption|]).
  exact (proj1 play_result_by_final_state Z ascii _ _ _ _ _ _
           example1 ["0"; "1"]%char silent 0 2 H1 H2).
Defined.

(** C6 on the replay of the demonstration program, with a recording
    listener. *)
Lemma listener_calls_in_order_witness :
  getInitState example1 = Some 0 /\
  run example1 0 ["1"; "0"; "1"; "0"]%char = Some 2 /\
  _cb recording = Some [] /\
  exists r p' v0 evs,
    play example1 ["1"; "0"; "1"; "0"]%char recording = Some (r, p') /\
    _cb p' = Some (foldl deliver [] ((StateChanging 0 0, v0) :: evs)) /\
    length evs = 4%nat.
Proof.
  assert (H1 : getInitState example1 = Some 0) by reflexivity.
  assert (H2 : run example1 0 ["1"; "0"; "1"; "0"]%char = Some 2)
    by reflexivity.
  assert (H3 : _cb recording = Some []) by reflexivity.
  do 3 (split; [assumption|]).
  destruct (listener_calls_in_order example1 ["1"; "0"; "1"; "0"]%char
              recording [] 0 2 H1 H2 H3)
    as (r & p' & v0 & evs & Hplay & Hcb & _ & Hlen & _).
  exists r, p', v0, evs.
  split; [exact Hplay|]. split; [exact Hcb|]. exact Hlen.
Defined.

(** C7 on the last replay of the tests. *)
Lemma play_twice_same_outcome_witness :
  getInitState example1 = Some 0 /\
  exists r p1 p2,
    play example1 ["1"; "0"; "0"]%char silent = Some (r, p1) /\
    play example1 ["1"; "0"; "0"]%char p1 = Some (r, p2) /\
    getCurState p2 = getCurState p1 /\
    _curPos p2 = _curPos p1 /\
    getCurPos p2 = getCurPos p1.
Proof.
  assert (H1 : getInitState example1 = Some 0) by reflexivity.
  split; [assumption|].
  exact (play_twice_same_outcome example1 ["1"; "0"; "0"]%char silent 0 H1).
Defined.

(** C8 on a replay that stops at index 1. *)
Lemma position_sentinel_only_witness :
  Z.of_nat (length ["1"; "2"; "0"]%char) <= INT_MAX /\
  play example1 ["1"; "2"; "0"]%char silent =
    Some (NoTrans, {| _curState := Some 0; _curPos := 1;
                      _lastSymb := Some "2"%char; _cb := None |}) /\
  (0 <= 1 <= Z.of_nat (length ["1"; "2"; "0"]%char)) /\ 1 <> -1.
Proof.
  assert (H1 : Z.of_nat (length ["1"; "2"; "0"]%char) <= INT_MAX)
    by (vm_compute; discriminate).
  assert (H2 : play example1 ["1"; "2"; "0"]%char silent =
                 Some (NoTrans, {| _curState := Some 0; _curPos := 1;
                                   _lastSymb := Some "2"%char; _cb := None |}))
    by reflexivity.
  do 2 (split; [assumption|]).
  destruct (position_sentinel_only
              (None : option (list (Event Z ascii * Snapshot Z ascii))))
    as (_ & _ & _ & _ & Hrun).
  destruct (Hrun example1 ["1"; "2"; "0"]%char silent NoTrans _ H1 H2)
    as (Hpos & Hne & _).
  split; [exact Hpos | exact Hne].
Defined.

(** C9 on the automaton of the tests, with a recording listener. *)
Lemma play_empty_sequence_witness :
  getInitState example1 = Some 0 /\
  exists p' v0,
    play example1 [] recording =
      Some (if hasFinState example1 0 then Ok else NonFinState, p') /\
    _curPos p' = 0 /\
    getCurState p' = Some 0 /\
    _cb p' = Some [(StateChanging 0 0, v0)].
Proof.
  assert (H1 : getInitState example1 = Some 0) by reflexivity.
  split; [assumption|].
  destruct (proj2 (play_empty_sequence example1 recording) 0 H1)
    as (p' & v0 & Hplay & Hpos & _ & Hst & _ & Hcb).
  exists p', v0. repeat split; try assumption.
  exact (proj1 (Hcb [] eq_refl)).
Defined.

(** On the automaton of the tests: a second [addTrans] for a pair that
    already has a destination. *)
Lemma insertions_only_grow_witness :
  getTrans example1 0 "1"%char = Some 0 /\
  getTrans (mutate (AddTrans 0 "1"%char 2) example1) 0 "1"%char = Some 0 /\
  hasState example1 1 = true /\
  hasState (mutate (AddTrans 0 "1"%char 2) example1) 1 = true.
Proof.
  assert (H1 : getTrans example1 0 "1"%char = Some 0) by reflexivity.
  assert (H2 : hasState example1 1 = true) by reflexivity.
  destruct (insertions_only_grow (AddTrans 0 "1"%char 2) example1)
    as (_ & Hs & _ & Ht & _).
  split; [assumption|]. split; [exact (Ht 0 "1"%char 0 H1)|].
  split; [assumption|]. exact (Hs 1 H2).
Defined.

(** ** Further facts about the automaton *)

Section DfaMoreFacts.
Context {State Alpha : Type}.
Context `{Countable State} `{Countable Alpha}.
Implicit Types (A : Dfa State Alpha) (s d q : State) (a : Alpha).
Implicit Types (l : list (StateAlphaState State Alpha)) (fin : list State).
Implicit Types (m : Mutation State Alpha).

Lemma size_add_element {T : Type} `{Countable T} (x : T) (X : gset T) :
  size ({[x]} ∪ X) = if bool_decide (x ∈ X) then size X else S (size X).
Proof.
  case_bool_decide as Hx.
  - f_equal. apply subseteq_union_1_L. by apply singleton_subseteq_l.
  - rewrite size_union by (by apply disjoint_singleton_l).
    by rewrite size_singleton.
Qed.

Lemma size_map_insert {K V : Type} `{Countable K}
    (k : K) (v : V) (t : gmap K V) :
  size (map_insert k v t) =
    match t !! k with
    | Some _ => size t
    | None => S (size t)
    end.
Proof.
  unfold map_insert. destruct (t !! k) eqn:Hk; [done|].
  by apply map_size_insert_None.
Qed.

(** [addTrans] adds both states and the symbol to the automaton, and a
    transition for the pair exists afterwards, whether or not the call
    recorded its own destination. *)
Theorem addTrans_inserts_its_parts A s a d :
  hasState (addTrans s a d A) s = true /\
  hasState (addTrans s a d A) d = true /\
  a ∈ _alphabet (addTrans s a d A) /\
  is_Some (getTrans (addTrans s a d A) s a).
Proof.
  unfold hasState. simpl. repeat split.
  - apply bool_decide_eq_true.
    rewrite !elem_of_union, !elem_of_singleton. tauto.
  - apply bool_decide_eq_true.
    rewrite !elem_of_union, !elem_of_singleton. tauto.
  - rewrite elem_of_union, elem_of_singleton. tauto.
  - rewrite getTrans_addTrans. destruct (getTrans A s a); [by eexists|].
    rewrite decide_True by done. by eexists.
Qed.

(** Lookup after insertion.  After [addTrans(s, a, d)] a destination that
    was recorded before is still the answer of [getTrans], for the pair
    (s, a) as for any other; (s, a) gets the destination [d] only when it
    had none; and the number of transitions grows by one in that case and
    stays as it is otherwise. *)
Theorem addTrans_lookup_and_count A s a d :
  (forall s' a',
     getTrans (addTrans s a d A) s' a' =
       match getTrans A s' a' with
       | Some d' => Some d'
       | None => if decide ((s, a) = (s', a')) then Some d else None
       end) /\
  getTransNum (addTrans s a d A) =
    match getTrans A s a with
    | Some _ => getTransNum A
    | None => S (getTransNum A)
    end.
Proof.
  split.
  - intros s' a'. apply getTrans_addTrans.
  - unfold getTransNum, getTrans. simpl. apply size_map_insert.
Qed.

(** The counters after the insertions into the sets: each grows by one
    when the element is new and stays as it is when the element is already
    there; [addFinState] counts the state in both sets, independently. *)
Theorem insertion_counts A s a :
  getStatesNum (addState s A) =
    (if hasState A s then getStatesNum A else S (getStatesNum A)) /\
  getSymbolsNum (addSymbol a A) =
    (if bool_decide (a ∈ _alphabet A) then getSymbolsNum A
     else S (getSymbolsNum A)) /\
  getStatesNum (addFinState s A) =
    (if hasState A s then getStatesNum A else S (getStatesNum A)) /\
  getFinStatesNum (addFinState s A) =
    (if hasFinState A s then getFinStatesNum A else S (getFinStatesNum A)) /\
  getFinStatesNum (addState s A) = getFinStatesNum A /\
  getTransNum (addState s A) = getTransNum A /\
  getTransNum (addFinState s A) = getTransNum A.
Proof.
  unfold getStatesNum, getSymbolsNum, getFinStatesNum, getTransNum,
    hasState, hasFinState. simpl.
  repeat split; apply size_add_element.
Qed.

Lemma size_add_element_le {T : Type} `{Countable T} (x : T) (X : gset T) :
  (size X <= size ({[x]} ∪ X) <= S (size X))%nat.
Proof. rewrite size_add_element. case_bool_decide; lia. Qed.

Lemma addState_consistent s A : consistent A -> consistent (addState s A).
Proof.
  intros (Hi & Hf & Ht). unfold consistent, getInitState, getTrans in *.
  cbn [addState _states _init _alphabet _transTable _finStates].
  split; [|split].
  - intros q Hq. rewrite elem_of_union, elem_of_singleton.
    case_decide; [left; congruence | right; by apply Hi].
  - intros x Hx. apply elem_of_union; right. by apply Hf.
  - intros s' a' d' Hd. destruct (Ht s' a' d' Hd) as (Hs & Hd' & Ha).
    rewrite !elem_of_union. tauto.
Qed.

Lemma addSymbol_consistent a A : consistent A -> consistent (addSymbol a A).
Proof.
  intros (Hi & Hf & Ht). unfold consistent, getInitState, getTrans in *.
  cbn [addSymbol _states _init _alphabet _transTable _finStates].
  split; [exact Hi|]. split; [exact Hf|].
  intros s' a' d' Hd. destruct (Ht s' a' d' Hd) as (Hs & Hd' & Ha).
  rewrite elem_of_union. tauto.
Qed.

Lemma addFinState_consistent s A : consistent A -> consistent (addFinState s A).
Proof.
  intros (Hi & Hf & Ht). unfold consistent, getInitState, getTrans in *.
  cbn [addFinState _states _init _alphabet _transTable _finStates].
  split; [|split].
  - intros q Hq. apply elem_of_union; right. by apply Hi.
  - intros x. rewrite !elem_of_union. intros [Hx|Hx]; [by left|].
    right. by apply Hf.
  - intros s' a' d' Hd. destruct (Ht s' a' d' Hd) as (Hs & Hd' & Ha).
    rewrite !elem_of_union. tauto.
Qed.

Lemma assignInitState_consistent s A :
  consistent A -> consistent (assignInitState s A).
Proof.
  intros HA. destruct (addState_consistent s A HA) as (_ & Hf & Ht).
  unfold consistent, getInitState, getTrans in *.
  cbn [assignInitState addState _states _init _alphabet _transTable
         _finStates] in *.
  split; [|split; [exact Hf|exact Ht]].
  intros q [= <-]. rewrite elem_of_union, elem_of_singleton. by left.
Qed.

Lemma addTrans_consistent s a d A : consistent A -> consistent (addTrans s a d A).
Proof.
  intros HA.
  pose proof (addSymbol_consistent a _
                (addState_consistent d _ (addState_consistent s A HA)))
    as (Hi & Hf & Ht).
  split; [exact Hi|]. split; [exact Hf|].
  intros s' a' d' Hd.
  unfold getTrans in Hd, Ht.
  cbn [addTrans _transTable] in Hd. rewrite map_insert_lookup in Hd.
  destruct (_transTable (addSymbol a (addState d (addState s A))) !! (s', a'))
    as [w|] eqn:Hw.
  - injection Hd as ->. by apply Ht.
  - case_decide as Hk; [|done]. injection Hd as ->. injection Hk as -> ->.
    cbn [addTrans addSymbol addState _states _alphabet].
    rewrite !elem_of_union, !elem_of_singleton. tauto.
Qed.

Lemma mutate_consistent m A : consistent A -> consistent (mutate m A).
Proof.
  destruct m; simpl.
  - apply addState_consistent.
  - apply addSymbol_consistent.
  - apply addTrans_consistent.
  - apply addFinState_consistent.
Qed.

Lemma mutate_all_consistent (ms : list (Mutation State Alpha)) A :
  consistent A -> consistent (mutate_all ms A).
Proof.
  revert A. induction ms as [|m ms IH]; intros A HA; [done|].
  unfold mutate_all in *. simpl. apply IH. by apply mutate_consistent.
Qed.

Lemma Dfa_default_consistent :
  consistent (Dfa_default (State:=State) (Alpha:=Alpha)).
Proof.
  unfold consistent, getInitState, getTrans. simpl.
  split; [done|]. split; [done|].
  intros s a d Hd. by rewrite lookup_empty in Hd.
Qed.

(** The automaton stays consistent: after any run of [addState],
    [addSymbol], [addTrans] and [addFinState] on a default-constructed
    automaton, and after the bulk constructor, the initial state, if one is
    assigned, is a state, every accepting state is a state, and every
    transition joins two states under a symbol of the alphabet. *)
Theorem automaton_always_consistent
    (ms : list (Mutation State Alpha)) (init : State)
    (l : list (StateAlphaState State Alpha)) (fin : list State) :
  consistent (mutate_all ms Dfa_default) /\
  consistent (Dfa_init init l fin) /\
  (forall s, hasFinState (mutate_all ms Dfa_default) s = true ->
             hasState (mutate_all ms Dfa_default) s = true).
Proof.
  assert (Hms : consistent (mutate_all ms Dfa_default))
    by (apply mutate_all_consistent, Dfa_default_consistent).
  split; [exact Hms|]. split.
  - rewrite Dfa_init_unfold.
    assert (Hfin : forall fin' A, consistent A ->
              consistent (addFinStateAll fin' A)).
    { induction fin' as [|s fin' IH]; intros A HA; [done|].
      unfold addFinStateAll in *. simpl. apply IH.
      by apply addFinState_consistent. }
    assert (Htr : forall l' A, consistent A -> consistent (addTransAll l' A)).
    { induction l' as [|t l' IH]; intros A HA; [done|].
      unfold addTransAll in *. simpl. apply IH.
      by apply addTrans_consistent. }
    apply Hfin, assignInitState_consistent, Htr, Dfa_default_consistent.
  - intros s Hs. destruct Hms as (_ & Hf & _). unfold hasFinState, hasState in *.
    apply bool_decide_eq_true. apply bool_decide_eq_true in Hs. by apply Hf.
Qed.

Lemma mutate_grows m A : grows A (mutate m A).
Proof.
  destruct m; simpl.
  - apply addState_grows.
  - apply addSymbol_grows.
  - apply addTrans_grows.
  - apply addFinState_grows.
Qed.

Lemma states_stay m A :
  size (_states A) <> 0%nat -> size (_states (mutate m A)) <> 0%nat.
Proof.
  intros Hne. destruct (mutate_grows m A) as (Hsub & _).
  pose proof (subseteq_size _ _ Hsub). lia.
Qed.

Lemma addState_keeps_init s A :
  size (_states A) <> 0%nat -> getInitState (addState s A) = getInitState A.
Proof.
  intros Hne. unfold getInitState, addState. cbn [_init].
  by rewrite decide_False.
Qed.

Lemma mutate_keeps_init m A :
  size (_states A) <> 0%nat ->
  getInitState (mutate m A) = getInitState A.
Proof.
  intros Hne. destruct m as [s|a|s a d|s]; cbn [mutate].
  - by apply addState_keeps_init.
  - done.
  - change (getInitState (addTrans s a d A))
      with (getInitState (addState d (addState s A))).
    rewrite addState_keeps_init.
    + by apply addState_keeps_init.
    + apply (states_stay (AddState s) A Hne).
  - done.
Qed.

Lemma Dfa_eq A B :
  _states A = _states B -> _init A = _init B ->
  _alphabet A = _alphabet B -> _transTable A = _transTable B ->
  _finStates A = _finStates B -> A = B.
Proof. destruct A, B. cbn. intros -> -> -> -> ->. reflexivity. Qed.

Lemma states_after_addState s A : size (_states (addState s A)) <> 0%nat.
Proof.
  cbn [addState _states]. pose proof (size_add_element_le s (_states A)).
  rewrite size_add_element in *. case_bool_decide as Hs; [|lia].
  intros Hz. apply size_empty_inv in Hz.
  apply (not_elem_of_empty (C := gset State) s). by rewrite <- Hz.
Qed.

Lemma states_after_mutate_state m A :
  (forall a, m <> AddSymbol a) -> size (_states (mutate m A)) <> 0%nat.
Proof.
  intros Hm. destruct m as [s|a|s a d|s]; cbn [mutate].
  - apply states_after_addState.
  - by destruct (Hm a).
  - apply (states_after_addState d (addState s A)).
  - apply (states_after_addState s A).
Qed.

(** Calling [addState], [addSymbol], [addTrans] or [addFinState] a second
    time with the same arguments changes nothing. *)
Theorem mutate_twice m A : mutate m (mutate m A) = mutate m A.
Proof.
  destruct m as [s|a|s a d|s]; cbn [mutate]; apply Dfa_eq.
  - cbn [addState _states]. set_by_elements.
  - apply (addState_keeps_init s (addState s A)), states_after_addState.
  - reflexivity.
  - reflexivity.
  - reflexivity.
  - reflexivity.
  - reflexivity.
  - cbn [addSymbol _alphabet]. set_by_elements.
  - reflexivity.
  - reflexivity.
  - cbn [addTrans addSymbol addState _states]. set_by_elements.
  - apply (mutate_keeps_init (AddTrans s a d) (addTrans s a d A)).
    apply (states_after_mutate_state (AddTrans s a d) A). discriminate.
  - cbn [addTrans addSymbol addState _alphabet]. set_by_elements.
  - cbn [addTrans addSymbol addState _transTable].
    apply map_eq. intros k. rewrite !map_insert_lookup.
    destruct (_transTable A !! k); [done|]. by case_decide.
  - reflexivity.
  - cbn [addFinState _states]. set_by_elements.
  - reflexivity.
  - reflexivity.
  - reflexivity.
  - cbn [addFinState _finStates]. set_by_elements.
Qed.

(** Once the automaton has a state, no run of [addState], [addSymbol],
    [addTrans] and [addFinState] changes the initial state: [getInitState]
    stays as it was, also when it was never assigned because the first
    state came in through [addFinState]. *)
Theorem initial_state_settled (ms : list (Mutation State Alpha)) A :
  size (_states A) <> 0%nat ->
  getInitState (mutate_all ms A) = getInitState A.
Proof.
  revert A. induction ms as [|m ms IH]; intros A Hne; [done|].
  unfold mutate_all in *. cbn [foldl]. rewrite IH by by apply states_stay.
  by apply mutate_keeps_init.
Qed.

Lemma first_dest_elem_of l s a d :
  first_dest l s a = Some d -> (s, a, d) ∈ l.
Proof.
  induction l as [|[[s1 a1] d1] l IH]; simpl; [done|].
  case_decide as Hk.
  - intros [= <-]. destruct Hk as [<- <-]. apply list_elem_of_here.
  - intros Hd. apply list_elem_of_further. by apply IH.
Qed.

Lemma first_dest_is_Some l s a d :
  (s, a, d) ∈ l -> is_Some (first_dest l s a).
Proof.
  induction l as [|[[s1 a1] d1] l IH]; intros Hin.
  - by apply elem_of_nil in Hin.
  - simpl. case_decide as Hk; [by eexists|].
    apply elem_of_cons in Hin as [Heq|Hin]; [|by apply IH].
    injection Heq as -> -> ->. by destruct Hk.
Qed.

(** The bulk constructor and lookup: [getTrans] answers with the
    destination of the first triple of the list for that state and symbol;
    every transition it reports is one of the triples, and every triple's
    state and symbol have a transition. *)
Theorem Dfa_init_lookup (init : State) l fin s a :
  getTrans (Dfa_init init l fin) s a = first_dest l s a /\
  (forall d, getTrans (Dfa_init init l fin) s a = Some d -> (s, a, d) ∈ l) /\
  (forall d, (s, a, d) ∈ l -> is_Some (getTrans (Dfa_init init l fin) s a)).
Proof.
  pose proof (Dfa_init_getTrans init l fin s a) as Hget.
  split; [exact Hget|]. rewrite Hget. split.
  - intros d. apply first_dest_elem_of.
  - intros d. apply first_dest_is_Some.
Qed.

Lemma addTrans_counts s a d A :
  (getStatesNum (addTrans s a d A) <= 2 + getStatesNum A)%nat /\
  (getSymbolsNum (addTrans s a d A) <= 1 + getSymbolsNum A)%nat /\
  (getTransNum (addTrans s a d A) <= 1 + getTransNum A)%nat /\
  getFinStatesNum (addTrans s a d A) = getFinStatesNum A.
Proof.
  unfold getStatesNum, getSymbolsNum, getTransNum, getFinStatesNum.
  cbn [addTrans addSymbol addState _states _alphabet _transTable _finStates].
  pose proof (size_add_element_le s (_states A)).
  pose proof (size_add_element_le d ({[s]} ∪ _states A)).
  pose proof (size_add_element_le a (_alphabet A)).
  rewrite size_map_insert.
  destruct (_transTable A !! (s, a)); repeat split; lia.
Qed.

Lemma addTransAll_counts l A :
  (getStatesNum (addTransAll l A) <= 2 * length l + getStatesNum A)%nat /\
  (getSymbolsNum (addTransAll l A) <= length l + getSymbolsNum A)%nat /\
  (getTransNum (addTransAll l A) <= length l + getTransNum A)%nat /\
  getFinStatesNum (addTransAll l A) = getFinStatesNum A.
Proof.
  revert A. induction l as [|[[s a] d] l IH]; intros A.
  - simpl. repeat split; lia.
  - unfold addTransAll in *. cbn [foldl length fst snd].
    destruct (IH (addTrans s a d A)) as (H1 & H2 & H3 & H4).
    destruct (addTrans_counts s a d A) as (G1 & G2 & G3 & G4).
    repeat split; lia.
Qed.

Lemma addFinStateAll_counts fin A :
  (getStatesNum (addFinStateAll fin A) <= length fin + getStatesNum A)%nat /\
  getSymbolsNum (addFinStateAll fin A) = getSymbolsNum A /\
  getTransNum (addFinStateAll fin A) = getTransNum A /\
  (getFinStatesNum (addFinStateAll fin A)
     <= length fin + getFinStatesNum A)%nat.
Proof.
  revert A. induction fin as [|s fin IH]; intros A.
  - simpl. repeat split; lia.
  - unfold addFinStateAll in *. cbn [foldl length].
    destruct (IH (addFinState s A)) as (H1 & H2 & H3 & H4).
    unfold getStatesNum, getSymbolsNum, getTransNum, getFinStatesNum in *.
    cbn [addFinState _states _alphabet _transTable _finStates] in *.
    pose proof (size_add_element_le s (_states A)).
    pose proof (size_add_element_le s (_finStates A)).
    repeat split; lia.
Qed.

(** The size of a bulk-constructed automaton is bounded by the size of the
    lists it is built from: at most one transition and one symbol per
    triple, at most two states per triple plus the initial state plus one
    per accepting state, and at most one accepting state per element; the
    set of states is never empty. *)
Theorem Dfa_init_counts (init : State) l fin :
  (getTransNum (Dfa_init init l fin) <= length l)%nat /\
  (getSymbolsNum (Dfa_init init l fin) <= length l)%nat /\
  (1 <= getStatesNum (Dfa_init init l fin)
     <= 2 * length l + 1 + length fin)%nat /\
  (getFinStatesNum (Dfa_init init l fin) <= length fin)%nat.
Proof.
  rewrite Dfa_init_unfold.
  destruct (addFinStateAll_counts fin
              (assignInitState init (addTransAll l Dfa_default)))
    as (H1 & H2 & H3 & H4).
  destruct (addTransAll_counts l (Dfa_default (State:=State) (Alpha:=Alpha)))
    as (G1 & G2 & G3 & G4).
  destruct (addFinStateAll_fields fin
              (assignInitState init (addTransAll l Dfa_default)))
    as (_ & _ & _ & Hst & _).
  assert (Hpos : (1 <= getStatesNum
                   (addFinStateAll fin
                      (assignInitState init (addTransAll l Dfa_default))))%nat).
  { unfold getStatesNum. rewrite Hst.
    cbn [assignInitState addState _states].
    assert (Hin : init ∈ list_to_set (C := gset State) fin
                         ∪ ({[init]} ∪ _states (addTransAll l Dfa_default))).
    { rewrite !elem_of_union, elem_of_singleton. tauto. }
    destruct (size (list_to_set (C := gset State) fin
                      ∪ ({[init]} ∪ _states (addTransAll l Dfa_default))))
      eqn:Hsz; [|lia].
    apply size_empty_inv in Hsz. rewrite Hsz in Hin.
    by apply not_elem_of_empty in Hin. }
  unfold getStatesNum, getSymbolsNum, getTransNum, getFinStatesNum in *.
  cbn [assignInitState addState _states _alphabet _transTable _finStates]
    in *.
  pose proof (size_add_element_le init (_states (addTransAll l Dfa_default))).
  change (size (_states (Dfa_default (State:=State) (Alpha:=Alpha))))
    with (size (∅ : gset State)) in G1.
  change (size (_alphabet (Dfa_default (State:=State) (Alpha:=Alpha))))
    with (size (∅ : gset Alpha)) in G2.
  change (size (_transTable (Dfa_default (State:=State) (Alpha:=Alpha))))
    with (size (∅ : gmap (State * Alpha) State)) in G3.
  change (size (_finStates (Dfa_default (State:=State) (Alpha:=Alpha))))
    with (size (∅ : gset State)) in G4.
  rewrite size_empty in G1, G4. rewrite size_empty in G2.
  rewrite map_size_empty in G3.
  repeat split; lia.
Qed.

(** The bulk constructor makes the given state the initial state, whatever
    the triples are, and that state is a state of the automaton; the
    accepting states are exactly the listed ones. *)
Theorem Dfa_init_initial_and_accepting (init : State) l fin :
  getInitState (Dfa_init init l fin) = Some init /\
  hasState (Dfa_init init l fin) init = true /\
  (forall s, hasFinState (Dfa_init init l fin) s = bool_decide (s ∈ fin)).
Proof. apply Dfa_init_fields. Qed.

Lemma addSymbol_unobserved a A :
  getInitState (addSymbol a A) = getInitState A /\
  (forall q a', getTrans (addSymbol a A) q a' = getTrans A q a') /\
  (forall q, hasFinState (addSymbol a A) q = hasFinState A q).
Proof. repeat split. Qed.

End DfaMoreFacts.

(** ** Further facts about the player *)

Section PlayerMoreFacts.
Context {State Alpha : Type}.
Context `{Countable State} `{Countable Alpha}.
Context {L : Type} `{IEventListener State Alpha L}.
Context `{FromInt State}.
Implicit Types (dfa : Dfa State Alpha) (p : DfaPlayer State Alpha L).
Implicit Types (q d : State) (a : Alpha) (seq pre rest xs ys : list Alpha).

Lemma run_app dfa q xs ys :
  run dfa q (xs ++ ys) =
    match run dfa q xs with
    | Some q' => run dfa q' ys
    | None => None
    end.
Proof.
  revert q. induction xs as [|a xs IH]; intros q; simpl; [done|].
  destruct (getTrans dfa q a); [apply IH | done].
Qed.

Lemma reached_run dfa q seq q' :
  run dfa q seq = Some q' -> reached dfa q seq = q'.
Proof.
  revert q. induction seq as [|a seq IH]; intros q; simpl.
  - by intros [= ->].
  - destruct (getTrans dfa q a); [apply IH | done].
Qed.

Lemma reached_app dfa q xs ys q' :
  run dfa q xs = Some q' -> reached dfa q (xs ++ ys) = reached dfa q' ys.
Proof.
  revert q. induction xs as [|a xs IH]; intros q; simpl.
  - by intros [= ->].
  - destruct (getTrans dfa q a); [apply IH | done].
Qed.

(** The number of transitions taken does not depend on the position the
    count starts from. *)
Lemma fired_length_pos dfa q pos pos' seq :
  length (fired dfa q pos seq) = length (fired dfa q pos' seq).
Proof.
  revert q pos pos'. induction seq as [|a seq IH]; intros q pos pos'; simpl.
  - done.
  - destruct (getTrans dfa q a); [simpl; f_equal; apply IH | done].
Qed.

Lemma fired_length_le dfa q pos seq :
  (length (fired dfa q pos seq) <= length seq)%nat.
Proof.
  revert q pos. induction seq as [|a seq IH]; intros q pos; simpl.
  - done.
  - destruct (getTrans dfa q a); simpl; [|lia].
    specialize (IH s (int_incr pos)). lia.
Qed.

Lemma fired_length_stuck dfa q pos seq :
  run dfa q seq = None -> (length (fired dfa q pos seq) < length seq)%nat.
Proof.
  revert q pos. induction seq as [|a seq IH]; intros q pos; simpl.
  - done.
  - destruct (getTrans dfa q a); simpl; [|lia].
    intros Hrun. specialize (IH s (int_incr pos) Hrun). lia.
Qed.

Lemma fired_length_app dfa q pos xs ys q' :
  run dfa q xs = Some q' ->
  length (fired dfa q pos (xs ++ ys)) =
    (length xs + length (fired dfa q' pos ys))%nat.
Proof.
  revert q pos. induction xs as [|a xs IH]; intros q pos; simpl.
  - by intros [= ->].
  - destruct (getTrans dfa q a); [|done]. intros Hrun. simpl.
    rewrite (IH _ (int_incr pos) Hrun).
    by rewrite (fired_length_pos dfa q' (int_incr pos) pos ys).
Qed.

(** The symbol at which the replay stops, when it does. *)
Lemma fired_stuck_symbol dfa q pos seq :
  run dfa q seq = None ->
  exists a, seq !! length (fired dfa q pos seq) = Some a /\
            getTrans dfa (reached dfa q seq) a = None.
Proof.
  revert q pos. induction seq as [|a seq IH]; intros q pos; simpl.
  - done.
  - destruct (getTrans dfa q a) eqn:Hd; simpl.
    + intros Hrun. apply (IH s (int_incr pos) Hrun).
    + intros _. by exists a.
Qed.

(** Everything the loop of [play] leaves behind, for any sequence: the
    result, the state, the position, the last symbol and the calls handed
    to the listener. *)
Lemma play_loop_report dfa seq p q :
  _curState p = Some q ->
  exists p',
    play_loop dfa seq p =
      Some (match run dfa q seq with
            | None => NoTrans
            | Some q' => if hasFinState dfa q' then Ok else NonFinState
            end, p') /\
    _curState p' = Some (reached dfa q seq) /\
    _curPos p' =
      Nat.iter (length (fired dfa q (_curPos p) seq)) int_incr (_curPos p) /\
    _lastSymb p' =
      (match last (take (S (length (fired dfa q (_curPos p) seq))) seq) with
       | Some a => Some a
       | None => _lastSymb p
       end) /\
    _cb p' = received (fired dfa q (_curPos p) seq) (_cb p).
Proof.
  revert p q. induction seq as [|a seq IH]; intros p q Hq.
  - exists p. split; [by apply play_loop_nil|].
    simpl. repeat split; try done. unfold received. by destruct (_cb p).
  - destruct (getTrans dfa q a) as [d|] eqn:Hd.
    + pose proof (replaySymb_fires dfa a p q d Hq Hd) as Hstep.
      match type of Hstep with _ = Some (_, ?p1) =>
        destruct (IH p1 d eq_refl) as (p' & Hloop & Hst & Hpos & Hsym & Hcb)
      end.
      cbn [_curPos _lastSymb _cb] in Hpos, Hsym, Hcb.
      exists p'. simpl run. simpl reached. simpl fired. rewrite Hd.
      split; [|split; [exact Hst|split; [|split]]].
      * simpl play_loop. unfold bindM. rewrite Hstep. simpl. exact Hloop.
      * rewrite Hpos. cbn [length]. by rewrite Nat.iter_succ_r.
      * rewrite Hsym. cbn [length take]. rewrite last_cons.
        by destruct (last _).
      * rewrite Hcb. unfold received. by destruct (_cb p).
    + eexists. split.
      { rewrite (play_loop_stuck dfa a seq p q Hq Hd). simpl run.
        by rewrite Hd. }
      simpl reached. simpl fired. rewrite Hd.
      cbn [_curState _curPos _lastSymb _cb length take].
      repeat split; try done. unfold received. by destruct (_cb p).
Qed.

(** The same for [play], which starts from the initial state at
    position 0. *)
Lemma play_report dfa seq p q0 :
  getInitState dfa = Some q0 ->
  exists p',
    play dfa seq p =
      Some (match run dfa q0 seq with
            | None => NoTrans
            | Some q' => if hasFinState dfa q' then Ok else NonFinState
            end, p') /\
    _curState p' = Some (reached dfa q0 seq) /\
    _curPos p' = Nat.iter (length (fired dfa q0 0 seq)) int_incr 0 /\
    _lastSymb p' =
      (match last (take (S (length (fired dfa q0 0 seq))) seq) with
       | Some a => Some a
       | None => _lastSymb p
       end) /\
    _cb p' =
      received
        ((StateChanging q0 q0,
          {| seen_state := Some q0; seen_pos := 0;
             seen_symb := _lastSymb p |}) :: fired dfa q0 0 seq)
        (_cb p).
Proof.
  intros Hq0. pose proof (init_assigned dfa p q0 Hq0) as Hinit.
  match type of Hinit with _ = Some (_, ?p0) =>
    destruct (play_loop_report dfa seq p0 q0 eq_refl)
      as (p' & Hloop & Hst & Hpos & Hsym & Hcb)
  end.
  cbn [_curPos _lastSymb _cb] in Hpos, Hsym, Hcb.
  exists p'. split; [|split; [exact Hst|split; [exact Hpos|split; [exact Hsym|]]]].
  - unfold play, bindM. rewrite Hinit. exact Hloop.
  - rewrite Hcb, received_cons. unfold deliver. cbn [fst snd]. reflexivity.
Qed.

(** The result of [play] read off the transition table: [NoTrans]
    exactly when a transition along the sequence is missing, [Ok] exactly
    when the sequence leads to an accepting state, [NonFinState] exactly
    when it leads to a state that is not accepting; the current state is
    the last state the replay got to. *)
Theorem play_result_characterised dfa seq p q0 :
  getInitState dfa = Some q0 ->
  exists r p',
    play dfa seq p = Some (r, p') /\
    (r = NoTrans <-> run dfa q0 seq = None) /\
    (r = Ok <->
       exists q, run dfa q0 seq = Some q /\ hasFinState dfa q = true) /\
    (r = NonFinState <->
       exists q, run dfa q0 seq = Some q /\ hasFinState dfa q = false) /\
    getCurState p' = Some (reached dfa q0 seq).
Proof.
  intros Hq0.
  destruct (play_report dfa seq p q0 Hq0) as (p' & Hplay & Hst & _).
  eexists _, p'. split; [exact Hplay|]. split; [|split; [|split; [|exact Hst]]].
  - destruct (run dfa q0 seq) as [q|]; [|done].
    destruct (hasFinState dfa q); split; discriminate.
  - destruct (run dfa q0 seq) as [q|];
      [destruct (hasFinState dfa q) eqn:Hf|]; split; intros Hx;
      try discriminate Hx.
    + by exists q.
    + reflexivity.
    + destruct Hx as (q' & [= <-] & Hf'). congruence.
    + by destruct Hx as (q' & Hq' & _).
  - destruct (run dfa q0 seq) as [q|];
      [destruct (hasFinState dfa q) eqn:Hf|]; split; intros Hx;
      try discriminate Hx.
    + destruct Hx as (q' & [= <-] & Hf'). congruence.
    + by exists q.
    + reflexivity.
    + by destruct Hx as (q' & Hq' & _).
Qed.

(** The position after [play] is the number of transitions taken, which is
    also the number of [onTransFired] calls handed to the listener: it is
    the length of the sequence unless the result is [NoTrans], and then it
    is the index of the symbol without a transition, which is the last
    symbol. *)
Theorem position_counts_transitions dfa seq p q0 :
  getInitState dfa = Some q0 ->
  Z.of_nat (length seq) <= INT_MAX ->
  exists r p' v0,
    play dfa seq p = Some (r, p') /\
    _cb p' = received ((StateChanging q0 q0, v0) :: fired dfa q0 0 seq) (_cb p) /\
    _curPos p' = Z.of_nat (length (fired dfa q0 0 seq)) /\
    (r <> NoTrans -> _curPos p' = Z.of_nat (length seq)) /\
    (r = NoTrans ->
       _curPos p' < Z.of_nat (length seq) /\
       exists a, seq !! Z.to_nat (_curPos p') = Some a /\
                 getLastSymbol p' = Some a /\
                 getTrans dfa (reached dfa q0 seq) a = None).
Proof.
  intros Hq0 Hlen.
  destruct (play_report dfa seq p q0 Hq0)
    as (p' & Hplay & Hst & Hpos & Hsym & Hcb).
  pose proof (fired_length_le dfa q0 0 seq) as Hle.
  assert (Hi : _curPos p' = Z.of_nat (length (fired dfa q0 0 seq))).
  { rewrite Hpos, iter_int_incr; unfold INT_MIN; lia. }
  eexists _, p', _. split; [exact Hplay|]. split; [exact Hcb|].
  split; [exact Hi|]. split.
  - intros Hr. destruct (run dfa q0 seq) as [q|] eqn:Hrun; [|done].
    destruct (fired_consumed dfa seq q0 0 q Hrun) as [Hn _]. by rewrite Hi, Hn.
  - intros Hr. destruct (run dfa q0 seq) as [q|] eqn:Hrun.
    { by destruct (hasFinState dfa q). }
    pose proof (fired_length_stuck dfa q0 0 seq Hrun) as Hlt.
    split; [lia|].
    destruct (fired_stuck_symbol dfa q0 0 seq Hrun) as (a & Ha & Hnone).
    exists a. rewrite Hi, Nat2Z.id. split; [exact Ha|]. split; [|exact Hnone].
    unfold getLastSymbol. rewrite Hsym, last_lookup.
    rewrite length_take_le by lia. cbn [pred].
    rewrite lookup_take_lt by lia. by rewrite Ha.
Qed.

(** [play] starts afresh whatever the player did before and whatever
    listener is attached: two players report the same result, state and
    position for the same automaton and sequence.  The last symbol is the
    same too when the sequence is not empty; for the empty sequence it is
    the one left by the previous run, as [init] does not reset it. *)
Theorem play_forgets_previous_run dfa seq p1 p2 :
  (seq <> [] \/ getLastSymbol p1 = getLastSymbol p2) ->
  report (play dfa seq p1) = report (play dfa seq p2) /\
  (forall r p', play dfa [] p1 = Some (r, p') ->
                getLastSymbol p' = getLastSymbol p1).
Proof.
  intros Hseq. destruct (getInitState dfa) as [q0|] eqn:Hq0.
  - split.
    + destruct (play_report dfa seq p1 q0 Hq0)
        as (p1' & -> & Hst1 & Hpos1 & Hsym1 & _).
      destruct (play_report dfa seq p2 q0 Hq0)
        as (p2' & -> & Hst2 & Hpos2 & Hsym2 & _).
      unfold report, getCurState, getLastSymbol in *. cbn [fmap option_fmap option_map fst snd].
      rewrite Hst1, Hst2, Hpos1, Hpos2, Hsym1, Hsym2.
      do 2 f_equal.
      destruct seq as [|a seq].
      * simpl. by destruct Hseq.
      * cbn [take]. rewrite last_cons.
        generalize (last (take (length (fired dfa q0 0 (a :: seq))) seq)).
        intros [y|]; reflexivity.
    + intros r p' Hplay.
      destruct (play_report dfa [] p1 q0 Hq0) as (p1' & Hp & _ & _ & Hsym & _).
      rewrite Hp in Hplay. injection Hplay as _ <-. exact Hsym.
  - unfold play, bindM. rewrite !(init_unassigned dfa _ Hq0). by split.
Qed.

Lemma play_loop_ext dfa1 dfa2 seq p :
  (forall q a, getTrans dfa1 q a = getTrans dfa2 q a) ->
  (forall q, hasFinState dfa1 q = hasFinState dfa2 q) ->
  play_loop dfa1 seq p = play_loop dfa2 seq p.
Proof.
  intros Ht Hf. revert p. induction seq as [|a seq IH]; intros p; simpl.
  - unfold bindM, read_curState, assigned.
    destruct (_curState p) as [q|]; [|done]. by rewrite Hf.
  - unfold bindM, replaySymb, bindM, write_lastSymb, read_curState, assigned.
    cbn [_curState]. destruct (_curState p) as [q|]; [|done].
    rewrite Ht. destruct (getTrans dfa2 q a); simpl; [apply IH | done].
Qed.

(** [play] reads the initial state, the transition table and the
    accepting states of the automaton and nothing else: two automata that
    agree on these replay every sequence alike, listener calls included.
    In particular the alphabet and the set of states play no part. *)
Theorem play_reads_table_only dfa1 dfa2 seq p :
  getInitState dfa1 = getInitState dfa2 ->
  (forall q a, getTrans dfa1 q a = getTrans dfa2 q a) ->
  (forall q, hasFinState dfa1 q = hasFinState dfa2 q) ->
  play dfa1 seq p = play dfa2 seq p.
Proof.
  intros Hi Ht Hf. unfold play, bindM, init, bindM, assigned. rewrite Hi.
  destruct (getInitState dfa2) as [q0|]; [|done]. simpl.
  by apply play_loop_ext.
Qed.

Lemma run_ext dfa1 dfa2 q seq :
  (forall q a, getTrans dfa1 q a = getTrans dfa2 q a) ->
  run dfa1 q seq = run dfa2 q seq.
Proof.
  intros Ht. revert q. induction seq as [|a seq IH]; intros q; simpl; [done|].
  rewrite Ht. destruct (getTrans dfa2 q a); [apply IH | done].
Qed.

Lemma reached_ext dfa1 dfa2 q seq :
  (forall q a, getTrans dfa1 q a = getTrans dfa2 q a) ->
  reached dfa1 q seq = reached dfa2 q seq.
Proof.
  intros Ht. revert q. induction seq as [|a seq IH]; intros q; simpl; [done|].
  rewrite Ht. destruct (getTrans dfa2 q a); [apply IH | done].
Qed.

Lemma fired_length_ext dfa1 dfa2 q pos seq :
  (forall q a, getTrans dfa1 q a = getTrans dfa2 q a) ->
  length (fired dfa1 q pos seq) = length (fired dfa2 q pos seq).
Proof.
  intros Ht. revert q pos.
  induction seq as [|a seq IH]; intros q pos; simpl; [done|].
  rewrite Ht. destruct (getTrans dfa2 q a); [simpl; f_equal; apply IH | done].
Qed.

(** Replaying in two parts.  When the first part [xs] is consumed and
    leads to the state [q], the replay of [xs ++ ys] has the result and the
    final state of the replay of [ys] on an automaton with the same
    transitions and accepting states whose initial state is [q], and its
    position is that of the second replay moved by the length of [xs]. *)
Theorem play_in_two_parts dfa dfa' xs ys p q0 q :
  getInitState dfa = Some q0 ->
  run dfa q0 xs = Some q ->
  getInitState dfa' = Some q ->
  (forall s a, getTrans dfa' s a = getTrans dfa s a) ->
  (forall s, hasFinState dfa' s = hasFinState dfa s) ->
  Z.of_nat (length (xs ++ ys)) <= INT_MAX ->
  exists r p1 p2,
    play dfa (xs ++ ys) p = Some (r, p1) /\
    play dfa' ys p = Some (r, p2) /\
    getCurState p1 = getCurState p2 /\
    _curPos p1 = Z.of_nat (length xs) + _curPos p2.
Proof.
  intros Hq0 Hrun Hq Ht Hf Hlen. rewrite length_app in Hlen.
  destruct (play_report dfa (xs ++ ys) p q0 Hq0)
    as (p1 & Hplay1 & Hst1 & Hpos1 & _).
  destruct (play_report dfa' ys p q Hq)
    as (p2 & Hplay2 & Hst2 & Hpos2 & _).
  rewrite (run_ext _ dfa q ys Ht) in Hplay2.
  rewrite (reached_ext _ dfa q ys Ht) in Hst2.
  rewrite (fired_length_ext _ dfa q 0 ys Ht) in Hpos2.
  rewrite run_app, Hrun in Hplay1.
  rewrite (reached_app dfa q0 xs ys q Hrun) in Hst1.
  rewrite (fired_length_app dfa q0 0 xs ys q Hrun) in Hpos1.
  pose proof (fired_length_le dfa q 0 ys) as Hle.
  rewrite iter_int_incr in Hpos1 by (unfold INT_MIN; lia).
  rewrite iter_int_incr in Hpos2 by (unfold INT_MIN; lia).
  eexists _, p1, p2. split; [exact Hplay1|]. split.
  - rewrite Hplay2. destruct (run dfa q ys) as [q'|]; [|reflexivity].
    by rewrite Hf.
  - unfold getCurState. rewrite Hst1, Hst2. split; [done|]. lia.
Qed.

End PlayerMoreFacts.

(** ** Facts about the demonstration program *)

Lemma string_app_assoc (s1 s2 s3 : string) :
  (s1 +:+ s2) +:+ s3 = s1 +:+ (s2 +:+ s3).
Proof.
  induction s1 as [|c s1 IH]; [reflexivity|].
  change (String c ((s1 +:+ s2) +:+ s3) = String c (s1 +:+ (s2 +:+ s3))).
  by f_equal.
Qed.

Lemma string_app_nil_r (s : string) : s +:+ EmptyString = s.
Proof.
  induction s as [|c s IH]; [reflexivity|].
  change (String c (s +:+ EmptyString) = String c s). by f_equal.
Qed.

Lemma demo_listener_received
    (evs : list (Event Z ascii * Snapshot Z ascii)) (out : string) :
  foldl deliver out evs =
    out +:+ foldr (fun e acc => call_text e +:+ acc) EmptyString evs.
Proof.
  revert out. induction evs as [|[e v] evs IH]; intros out.
  - simpl. by rewrite string_app_nil_r.
  - cbn [foldl foldr]. rewrite IH. unfold deliver, call_text.
    destruct e;
      cbn [fst snd onStateChanging onTransFired IntCharDfaPlayerEventListener].
    + reflexivity.
    + by rewrite string_app_assoc.
Qed.

(** The listener of the demonstration program writes one line,
    [s --[a]--> d], for every transition taken, in the order of the
    replay, after what was written before; it writes nothing when the
    replay starts and nothing for a symbol without a transition.  The
    program itself writes its greeting, the four transitions of the replay
    of '1','0','1','0' and its farewell. *)
Theorem demo_listener_output
    (dfa : IntCharDfa) (seq : list ascii)
    (p : IntCharDfaPlayer string) (out : string) (q0 : Z) :
  getInitState dfa = Some q0 ->
  getEventListener p = Some out ->
  (exists r p',
     play dfa seq p = Some (r, p') /\
     getEventListener p' =
       Some (out +:+ foldr (fun e acc => call_text e +:+ acc) EmptyString
                       (fired dfa q0 0 seq)))
  /\
  main =
    Some ("Let's do some deterministic automata!" +:+ nl +:+
          "0 --[1]--> 0" +:+ nl +:+
          "0 --[0]--> 1" +:+ nl +:+
          "1 --[1]--> 2" +:+ nl +:+
          "2 --[0]--> 2" +:+ nl +:+
          nl +:+ nl +:+ "Bye-bye!" +:+ nl +:+ nl).
Proof.
  intros Hq0 Hout. split; [|by vm_compute].
  destruct (play_report dfa seq p q0 Hq0) as (p' & Hplay & _ & _ & _ & Hcb).
  eexists _, p'. split; [exact Hplay|].
  unfold getEventListener in *. rewrite Hcb, Hout, received_attached.
  rewrite demo_listener_received. cbn [foldr]. unfold call_text at 1.
  reflexivity.
Qed.

(** ** The further theorems at concrete inputs *)

(** An accepting state added first, then a transition: the accepting state
    is a state. *)
Lemma automaton_always_consistent_witness :
  hasFinState
    (mutate_all [AddFinState 2; AddTrans 0 "a"%char 1] Dfa_default) 2 = true /\
  hasState
    (mutate_all [AddFinState 2; AddTrans 0 "a"%char 1] Dfa_default) 2 = true.
Proof.
  assert (H1 : hasFinState
                 (mutate_all [AddFinState 2; AddTrans 0 "a"%char 1]
                    (Dfa_default (State:=Z) (Alpha:=ascii))) 2 = true)
    by (vm_compute; reflexivity).
  split; [exact H1|].
  exact (proj2 (proj2 (automaton_always_consistent
                         [AddFinState 2; AddTrans 0 "a"%char 1] 0 [] []))
           2 H1).
Defined.

(** More states, symbols and transitions on the automaton of the tests
    leave its initial state at 0. *)
Lemma initial_state_settled_witness :
  size (_states example1) <> 0%nat /\
  getInitState
    (mutate_all [AddState 5; AddTrans 6 "a"%char 7; AddFinState 8] example1)
    = getInitState example1.
Proof.
  assert (H1 : size (_states example1) <> 0%nat)
    by (vm_compute; discriminate).
  split; [exact H1|].
  exact (initial_state_settled
           [AddState 5; AddTrans 6 "a"%char 7; AddFinState 8] example1 H1).
Defined.

(** A list with two triples for the same state and symbol. *)
Lemma Dfa_init_lookup_witness :
  (0, "a"%char, 2) ∈ [ (0, "a"%char, 1); (0, "a"%char, 2) ] /\
  is_Some (getTrans (Dfa_init 0 [ (0, "a"%char, 1); (0, "a"%char, 2) ] [])
             0 "a"%char).
Proof.
  assert (H1 : (0, "a"%char, 2) ∈ [ (0, "a"%char, 1); (0, "a"%char, 2) ])
    by (apply list_elem_of_further, list_elem_of_here).
  split; [exact H1|].
  exact (proj2 (proj2 (Dfa_init_lookup 0
                         [ (0, "a"%char, 1); (0, "a"%char, 2) ] []
                         0 "a"%char)) 2 H1).
Defined.

Lemma play_result_characterised_witness :
  getInitState example1 = Some 0 /\
  exists r p',
    play example1 ["1"; "2"; "0"]%char silent = Some (r, p') /\
    (r = NoTrans <-> run example1 0 ["1"; "2"; "0"]%char = None) /\
    getCurState p' = Some (reached example1 0 ["1"; "2"; "0"]%char).
Proof.
  assert (H1 : getInitState example1 = Some 0) by reflexivity.
  split; [exact H1|].
  destruct (play_result_characterised example1 ["1"; "2"; "0"]%char silent 0 H1)
    as (r & p' & Hplay & Hno & _ & _ & Hst).
  exists r, p'. split; [exact Hplay|]. split; [exact Hno|exact Hst].
Defined.

Lemma position_counts_transitions_witness :
  getInitState example1 = Some 0 /\
  Z.of_nat (length ["1"; "2"; "0"]%char) <= INT_MAX /\
  exists r p',
    play example1 ["1"; "2"; "0"]%char recording = Some (r, p') /\
    _curPos p' = Z.of_nat (length (fired example1 0 0 ["1"; "2"; "0"]%char)).
Proof.
  assert (H1 : getInitState example1 = Some 0) by reflexivity.
  assert (H2 : Z.of_nat (length ["1"; "2"; "0"]%char) <= INT_MAX)
    by (vm_compute; discriminate).
  split; [exact H1|]. split; [exact H2|].
  destruct (position_counts_transitions example1 ["1"; "2"; "0"]%char
              recording 0 H1 H2)
    as (r & p' & v0 & Hplay & _ & Hpos & _).
  exists r, p'. split; [exact Hplay|exact Hpos].
Defined.

(** A player that has replayed before and a fresh one. *)
Lemma play_forgets_previous_run_witness :
  (["0"; "1"]%char <> [] \/
   getLastSymbol
     ({| _curState := Some 1; _curPos := 3; _lastSymb := Some "0"%char;
         _cb := None |} : IntCharDfaPlayer (list (Event Z ascii * Snapshot Z ascii)))
     = getLastSymbol silent) /\
  report (play example1 ["0"; "1"]%char
            ({| _curState := Some 1; _curPos := 3; _lastSymb := Some "0"%char;
                _cb := None |}
             : IntCharDfaPlayer (list (Event Z ascii * Snapshot Z ascii))))
    = report (play example1 ["0"; "1"]%char silent).
Proof.
  assert (H1 : ["0"; "1"]%char <> [] \/
               getLastSymbol
                 ({| _curState := Some 1; _curPos := 3;
                     _lastSymb := Some "0"%char; _cb := None |}
                  : IntCharDfaPlayer (list (Event Z ascii * Snapshot Z ascii)))
                 = getLastSymbol silent)
    by (left; discriminate).
  split; [exact H1|].
  exact (proj1 (play_forgets_previous_run example1 ["0"; "1"]%char _ silent H1)).
Defined.

(** A symbol added to the alphabet changes no replay. *)
Lemma play_reads_table_only_witness :
  getInitState (addSymbol "2"%char example1) = getInitState example1 /\
  (forall q a, getTrans (addSymbol "2"%char example1) q a
               = getTrans example1 q a) /\
  (forall q, hasFinState (addSymbol "2"%char example1) q
             = hasFinState example1 q) /\
  play (addSymbol "2"%char example1) ["1"; "2"]%char recording
    = play example1 ["1"; "2"]%char recording.
Proof.
  destruct (addSymbol_unobserved "2"%char example1) as (H1 & H2 & H3).
  split; [exact H1|]. split; [exact H2|]. split; [exact H3|].
  exact (play_reads_table_only (addSymbol "2"%char example1) example1
           ["1"; "2"]%char recording H1 H2 H3).
Defined.

Lemma play_in_two_parts_witness :
  getInitState example1 = Some 0 /\
  run example1 0 ["1"; "0"]%char = Some 1 /\
  getInitState example1_from1 = Some 1 /\
  (forall s a, getTrans example1_from1 s a = getTrans example1 s a) /\
  (forall s, hasFinState example1_from1 s = hasFinState example1 s) /\
  Z.of_nat (length (["1"; "0"] ++ ["1"; "0"])%char) <= INT_MAX /\
  exists r p1 p2,
    play example1 (["1"; "0"] ++ ["1"; "0"])%char silent = Some (r, p1) /\
    play example1_from1 ["1"; "0"]%char silent = Some (r, p2) /\
    getCurState p1 = getCurState p2 /\
    _curPos p1 = Z.of_nat (length ["1"; "0"]%char) + _curPos p2.
Proof.
  assert (H1 : getInitState example1 = Some 0) by reflexivity.
  assert (H2 : run example1 0 ["1"; "0"]%char = Some 1) by reflexivity.
  assert (H3 : getInitState example1_from1 = Some 1) by reflexivity.
  assert (H4 : forall s a,
             getTrans example1_from1 s a = getTrans example1 s a).
  { intros s a. unfold example1_from1, example1.
    rewrite !Dfa_init_getTrans. reflexivity. }
  assert (H5 : forall s, hasFinState example1_from1 s = hasFinState example1 s).
  { intros s. unfold example1_from1, example1.
    rewrite !(proj2 (proj2 (Dfa_init_fields _ _ _))). reflexivity. }
  assert (H6 : Z.of_nat (length (["1"; "0"] ++ ["1"; "0"])%char) <= INT_MAX)
    by (vm_compute; discriminate).
  split; [exact H1|]. split; [exact H2|]. split; [exact H3|].
  split; [exact H4|]. split; [exact H5|]. split; [exact H6|].
  exact (play_in_two_parts example1 example1_from1 ["1"; "0"]%char
           ["1"; "0"]%char silent 0 1 H1 H2 H3 H4 H5 H6).
Defined.

(** The replay of the demonstration program, on an output that already
    holds the greeting. *)
Lemma demo_listener_output_witness :
  getInitState example1 = Some 0 /\
  getEventListener (DfaPlayer_new (Some "Hi"%string) : IntCharDfaPlayer string)
    = Some "Hi"%string /\
  exists r p',
    play example1 ["1"; "0"]%char
      (DfaPlayer_new (Some "Hi"%string) : IntCharDfaPlayer string)
      = Some (r, p') /\
    getEventListener p' =
      Some ("Hi" +:+ foldr (fun e acc => call_text e +:+ acc) EmptyString
                       (fired example1 0 0 ["1"; "0"]%char)).
Proof.
  assert (H1 : getInitState example1 = Some 0) by reflexivity.
  assert (H2 : getEventListener
                 (DfaPlayer_new (Some "Hi"%string) : IntCharDfaPlayer string)
               = Some "Hi"%string) by reflexivity.
  split; [exact H1|]. split; [exact H2|].
  exact (proj1 (demo_listener_output example1 ["1"; "0"]%char
                  (DfaPlayer_new (Some "Hi"%string)) "Hi" 0 H1 H2)).
Defined.
